(** * Laser wanderer (lab1): kinematic rollouts, scan cost evaluators and the
      anytime planner loop, embedded over the real numbers.

    Sources: [src/lab1/src/car_laser_wanderer.py] (single-ray evaluator) and
    [src/lab1/src/laser_wanderer.py] (footprint-interval evaluator).  Both files
    share [kinematic_model_step], [generate_rollout], [generate_mpc_rollouts]
    and the body of [wander_cb].

    Floating-point numbers are modelled by [R].  numpy's non-finite values
    enter at two places only: scan beams ([beam] below) and the bearing
    [np.arctan(dy/dx)], whose [dx = 0] case is written out as numpy computes
    it ([+-inf] gives [+-pi/2], [0/0] gives NaN, modelled as [None]). *)

From Stdlib Require Import Reals Lra Lia List ZArith.
Import ListNotations.
Open Scope R_scope.

(** ** Module-level constants *)

Definition MAX_PENALTY : R := 10000.
Definition CAR_WIDTH : R := 3 / 10.
Definition DETECTION_THRESH : R := 1 / 2.

(** ** Data model *)

Record pose := mk_pose { px : R; py : R; ptheta : R }.

(** A control row [v, delta, dt]. *)
Record control := mk_control { c_speed : R; c_delta : R; c_dt : R }.

(** A beam of [LaserScan.ranges]: a float that may be NaN or infinite. *)
Inductive beam := Finite (r : R) | NaN | PosInf | NegInf.

(** [np.isfinite] *)
Definition isfinite (b : beam) : bool :=
  match b with Finite _ => true | _ => false end.

Record LaserScan := mk_scan {
  angle_min : R;
  angle_max : R;
  angle_increment : R;
  ranges : list beam }.

(** The fields stored by [LaserWanderer.__init__].  The single-ray class of
    [car_laser_wanderer.py] takes the first five; the footprint class of
    [laser_wanderer.py] also takes [car_length], [car_width] and
    [detection_thresh].  [rollouts_T] is [self.rollouts.shape[1]], the second
    dimension of the [N x T x 3] array. *)
Record LaserWanderer := mk_lw {
  rollouts : list (list pose);
  rollouts_T : nat;
  deltas : list R;
  speed : R;
  compute_time : R;
  laser_offset : R;
  car_length : R;
  car_width : R;
  detection_thresh : R }.

(** ** Python and numpy primitives *)

(** [int(r)] truncates towards zero. *)
Definition py_int (r : R) : Z :=
  if Rle_dec 0 r then Int_part r else (- Int_part (- r))%Z.

(** [math.ceil] *)
Definition py_ceil (r : R) : Z := (- Int_part (- r))%Z.

(** [seq[i]] on a Python sequence: negative indices count from the end, an
    index outside [-len, len) raises [IndexError] ([None]). *)
Definition py_index {A} (l : list A) (i : Z) : option A :=
  if (i <? 0)%Z then
    if (Z.of_nat (length l) + i <? 0)%Z then None
    else nth_error l (Z.to_nat (Z.of_nat (length l) + i))
  else nth_error l (Z.to_nat i).

(** [np.arctan(dy / dx)] on float64: [dx = 0] gives [+-inf] (so [+-pi/2]) or
    NaN for [0/0]; NaN is [None]. *)
Definition np_arctan_div (dy dx : R) : option R :=
  if Req_EM_T dx 0 then
    if Rlt_dec 0 dy then Some (PI / 2)
    else if Rlt_dec dy 0 then Some (- (PI / 2))
    else None
  else Some (atan (dy / dx)).

(** [min((a, b))] and [max((a, b))] on two floats, NaN being [None]: the
    first element is kept unless the second compares strictly smaller
    (resp. greater), and every comparison with NaN is false. *)
Definition py_min2 (a b : option R) : option R :=
  match a, b with
  | Some x, Some y => if Rlt_dec y x then Some y else Some x
  | _, _ => a
  end.

Definition py_max2 (a b : option R) : option R :=
  match a, b with
  | Some x, Some y => if Rlt_dec x y then Some y else Some x
  | _, _ => a
  end.

(** [a < x] and [a > x] on a float that may be NaN. *)
Definition opt_lt (a : option R) (x : R) : bool :=
  match a with Some v => if Rlt_dec v x then true else false | None => false end.

Definition opt_gt (a : option R) (x : R) : bool :=
  match a with Some v => if Rlt_dec x v then true else false | None => false end.

(** [np.arange(start, stop, step)]: [ceil((stop - start) / step)] entries
    (none if that is not positive), the [i]-th being [start + i * step].
    The length and the entries are computed over exact reals, not numpy's
    doubles (in doubles the last entry can round up to [stop]), and a zero
    [step], for which numpy raises, gives no entries here: statements about
    the model matches numpy's values away from [stop] only. *)
Definition np_arange (start stop step : R) : list R :=
  map (fun i => start + INR i * step)
      (seq 0 (Z.to_nat (py_ceil ((stop - start) / step)))).

(** [np.arange(lo, hi + 1)] on integers. *)
Definition zrange (lo hi : Z) : list Z :=
  map (fun k => (lo + Z.of_nat k)%Z) (seq 0 (Z.to_nat (hi + 1 - lo))).

(** [np.argmin]: the first index of a minimal entry; an empty array raises
    [ValueError] ([None]). *)
Fixpoint argmin_from (l : list R) (i bi : nat) (bv : R) : nat :=
  match l with
  | [] => bi
  | x :: t => if Rlt_dec x bv then argmin_from t (S i) i x
              else argmin_from t (S i) bi bv
  end.

Definition np_argmin (l : list R) : option nat :=
  match l with
  | [] => None
  | x :: t => Some (argmin_from t 1 0 x)
  end.

(** [a[n] = v] on a list; out-of-range writes raise. *)
Fixpoint list_set (l : list R) (n : nat) (v : R) : list R :=
  match l, n with
  | [], _ => []
  | _ :: t, O => v :: t
  | x :: t, S n' => x :: list_set t n' v
  end.

(** ** Kinematic model ([kinematic_model_step]) *)

(** The heading wrap as written: [+ 2*pi] below zero, [- pi] above [2*pi]. *)
Definition wrap_theta (t : R) : R :=
  if Rlt_dec t 0 then 2 * PI + t
  else if Rlt_dec (2 * PI) t then t - PI
  else t.

(** [kinematic_model_step]. [speed / car_length] is Rocq's total division:
    the model follows the source for [car_length <> 0]; at [car_length = 0]
    the source computes [inf] or NaN, which this model does not represent. *)
Definition kinematic_model_step (p : pose) (u : control) (car_length : R) : pose :=
  let B := atan (1 / 2 * tan (c_delta u)) in
  let theta_next :=
    wrap_theta (ptheta p + (c_speed u / car_length) * sin (2 * B) * c_dt u) in
  if Req_EM_T B 0 then
    mk_pose (px p + c_speed u * cos theta_next * c_dt u)
            (py p + c_speed u * sin theta_next * c_dt u)
            theta_next
  else
    mk_pose (px p + car_length / sin (2 * B) * (sin theta_next - sin (ptheta p)))
            (py p - car_length / sin (2 * B) * (cos theta_next - cos (ptheta p)))
            theta_next.

(** [generate_rollout]: the pose after each control row. *)
Fixpoint generate_rollout (p : pose) (controls : list control) (car_length : R)
  : list pose :=
  match controls with
  | [] => []
  | u :: us =>
      let p' := kinematic_model_step p u car_length in
      p' :: generate_rollout p' us car_length
  end.

(** [generate_mpc_rollouts]: one rollout of [T] constant controls per delta
    of [np.arange(min_delta, max_delta, delta_incr)], from [(0, 0, 0)]. *)
Definition generate_mpc_rollouts (speed min_delta max_delta delta_incr dt : R)
  (T : nat) (car_length : R) : list (list pose) * list R :=
  let ds := np_arange min_delta max_delta delta_incr in
  (map (fun d => generate_rollout (mk_pose 0 0 0)
                   (repeat (mk_control speed d dt) T) car_length) ds, ds).

(** ** Scan cost evaluators ([LaserWanderer.compute_cost]) *)

(** The straight-line distance from the origin [current_pose] to the pose. *)
Definition pose_distance (p : pose) : R :=
  sqrt ((0 - px p) * (0 - px p) + (0 - py p) * (0 - py p)).

(** [np.isfinite(d) and dist > d - np.abs(laser_offset)] *)
Definition too_close (laser_offset dist : R) (b : beam) : bool :=
  match b with
  | Finite d => if Rlt_dec (d - Rabs laser_offset) dist then true else false
  | _ => false
  end.

(** [int((angle - laser_msg.angle_min) / laser_msg.angle_increment)]; a zero
    increment gives an infinite or NaN quotient and [int] raises. *)
Definition beam_index (angle : R) (msg : LaserScan) : option Z :=
  if Req_EM_T (angle_increment msg) 0 then None
  else Some (py_int ((angle - angle_min msg) / angle_increment msg)).

Module SingleRay.

(** [LaserWanderer._compute_pose_angle] of [car_laser_wanderer.py]. *)
Definition _compute_pose_angle (current_pose rollout_pose : pose) : option R :=
  np_arctan_div (py rollout_pose - py current_pose)
                (px rollout_pose - px current_pose).

(** [LaserWanderer.compute_cost] of [car_laser_wanderer.py].  [None] is a
    raised exception ([IndexError], or [ValueError] from [int(nan)]). *)
Definition compute_cost (lw : LaserWanderer) (delta : R) (rollout_pose : pose)
  (laser_msg : LaserScan) : option R :=
  let cost := Rabs delta in
  let current_pose := mk_pose 0 0 0 in
  let rollout_pose_distance := pose_distance rollout_pose in
  match _compute_pose_angle current_pose rollout_pose with
  | None => None
  | Some rollout_pose_angle =>
      if Rlt_dec rollout_pose_angle (angle_min laser_msg) then Some (cost + MAX_PENALTY)
      else if Rlt_dec (angle_max laser_msg) rollout_pose_angle then Some (cost + MAX_PENALTY)
      else
        match beam_index rollout_pose_angle laser_msg with
        | None => None
        | Some angle_index =>
            match py_index (ranges laser_msg) angle_index with
            | None => None
            | Some laser_ray_dist =>
                if too_close (laser_offset lw) rollout_pose_distance laser_ray_dist
                then Some (cost + MAX_PENALTY)
                else Some cost
            end
        end
  end.

End SingleRay.

Module Footprint.

(** [LaserWanderer.rollout_to_laser_angle] of [laser_wanderer.py]: the
    bearings of the front-left and front-right corners
    [(car_length/2, +-car_width/2)] mapped through
    [compose_matrix(translate=(x, y, 0), angles=(0, 0, theta))]. *)
Definition rollout_to_laser_angle (lw : LaserWanderer) (roll_pose : pose)
  : option R * option R :=
  let c := cos (ptheta roll_pose) in
  let s := sin (ptheta roll_pose) in
  let a := car_length lw / 2 in
  let b := car_width lw / 2 in
  let xl := c * a - s * b + px roll_pose in
  let yl := s * a + c * b + py roll_pose in
  let xr := c * a - s * (- b) + px roll_pose in
  let yr := s * a + c * (- b) + py roll_pose in
  (np_arctan_div yl xl, np_arctan_div yr xr).

(** [too_close_count] over the indices of [angle_index]; [None] when an
    index raises [IndexError]. *)
Fixpoint count_too_close (laser_offset dist : R) (rs : list beam) (idxs : list Z)
  : option nat :=
  match idxs with
  | [] => Some O
  | idx :: t =>
      match py_index rs idx with
      | None => None
      | Some laser_ray_dist =>
          match count_too_close laser_offset dist rs t with
          | None => None
          | Some c => Some (if too_close laser_offset dist laser_ray_dist then S c else c)
          end
      end
  end.

(** The outcome of the field-of-view test and the beam sweep: the pose is out
    of view, or [k] beams were checked of which [c] are too close, or an
    exception was raised. *)
Inductive fp_eval := OutOfView | Checked (k c : nat) | Error.

Definition footprint_scan (lw : LaserWanderer) (rollout_pose : pose)
  (laser_msg : LaserScan) : fp_eval :=
  let rollout_pose_distance := pose_distance rollout_pose in
  let '(la, ra) := rollout_to_laser_angle lw rollout_pose in
  let amin := py_min2 la ra in
  let amax := py_max2 la ra in
  if (opt_lt amin (angle_min laser_msg) || opt_gt amax (angle_max laser_msg))%bool
  then OutOfView
  else
    match amin, amax with
    | Some a1, Some a2 =>
        match beam_index a1 laser_msg, beam_index a2 laser_msg with
        | Some i1, Some i2 =>
            let angle_index := zrange (Z.min i1 i2) (Z.max i1 i2) in
            match count_too_close (laser_offset lw) rollout_pose_distance
                    (ranges laser_msg) angle_index with
            | Some too_close_count => Checked (length angle_index) too_close_count
            | None => Error
            end
        | _, _ => Error
        end
    | _, _ => Error
    end.

(** The penalty chosen from [k = np.size(angle_index)] and
    [c = too_close_count]; [DETECTION_THRESH] is the module constant. *)
Definition hazard_penalty (k c : nat) : R :=
  let hazard_prop := INR c / INR k in
  if (Nat.eqb k 1 && Nat.ltb 0 c)%bool then MAX_PENALTY
  else if Rle_dec DETECTION_THRESH hazard_prop then MAX_PENALTY
  else hazard_prop * 30.

(** [LaserWanderer.compute_cost] of [laser_wanderer.py]. *)
Definition compute_cost (lw : LaserWanderer) (delta : R) (rollout_pose : pose)
  (laser_msg : LaserScan) : option R :=
  let cost := Rabs delta in
  match footprint_scan lw rollout_pose laser_msg with
  | OutOfView => Some (cost + MAX_PENALTY)
  | Checked k c => Some (cost + hazard_penalty k c)
  | Error => None
  end.

End Footprint.

(** ** Planner loop ([LaserWanderer.wander_cb]) *)

(** What one callback does: publish a drive command, or raise before
    publishing. *)
Inductive outcome := Publish (steering_angle drive_speed : R) | Raise.

Section Planner.

Variable compute_cost : LaserWanderer -> R -> pose -> LaserScan -> option R.
Variable lw : LaserWanderer.
Variable msg : LaserScan.
(** [now k] is the [k]-th reading of [rospy.Time.now()] in the callback:
    [now 0] is [start], [now k] the reading of the [k]-th loop test. *)
Variable now : nat -> R.

(** [delta_costs[n] += self.compute_cost(self.deltas[n],
    self.rollouts[n][traj_depth], msg)] *)
Definition update_cost (traj_depth : nat) (delta_costs : list R) (n : nat)
  : option (list R) :=
  match nth_error delta_costs n, nth_error (deltas lw) n, nth_error (rollouts lw) n with
  | Some a, Some d, Some traj =>
      match nth_error traj traj_depth with
      | Some p =>
          match compute_cost lw d p msg with
          | Some c => Some (list_set delta_costs n (a + c))
          | None => None
          end
      | None => None
      end
  | _, _, _ => None
  end.

(** [for n in range(self.rollouts.shape[0])]: one depth for every trajectory. *)
Fixpoint depth_pass (ns : list nat) (traj_depth : nat) (delta_costs : list R)
  : option (list R) :=
  match ns with
  | [] => Some delta_costs
  | n :: t =>
      match update_cost traj_depth delta_costs n with
      | Some dc => depth_pass t traj_depth dc
      | None => None
      end
  end.

(** [while rospy.Time.now().to_sec() - start < self.compute_time and
    traj_depth < T]; the result is the accumulators, the depth reached and
    the index of the next clock reading. *)
Fixpoint sweep (fuel k traj_depth : nat) (delta_costs : list R)
  : option (list R * nat * nat) :=
  match fuel with
  | O => Some (delta_costs, traj_depth, k)
  | S f =>
      if Rlt_dec (now k - now O) (compute_time lw) then
        if Nat.ltb traj_depth (rollouts_T lw) then
          match depth_pass (seq 0 (length (rollouts lw))) traj_depth delta_costs with
          | Some dc => sweep f (S k) (S traj_depth) dc
          | None => None
          end
        else Some (delta_costs, traj_depth, k)
      else Some (delta_costs, traj_depth, k)
  end.

(** The loop from [delta_costs = np.zeros(N)], [traj_depth = 0]. *)
Definition wander_sweep : option (list R * nat * nat) :=
  sweep (S (rollouts_T lw)) 1 0 (repeat 0 (length (deltas lw))).

(** [min_delta_index = np.argmin(delta_costs)]; publish
    [self.deltas[min_delta_index]] at [self.speed]. *)
Definition wander_cb : outcome :=
  match wander_sweep with
  | None => Raise
  | Some (delta_costs, _, _) =>
      match np_argmin delta_costs with
      | None => Raise
      | Some min_delta_index =>
          match nth_error (deltas lw) min_delta_index with
          | Some min_delta => Publish min_delta (speed lw)
          | None => Raise
          end
      end
  end.

End Planner.

(** ** Specification-side notions *)

(** Modelled from the spec: the "full two-argument arctangent" the spec asks
    the bearing to be; the usual [atan2] on [R]. *)
Definition spec_atan2 (y x : R) : R :=
  if Rlt_dec 0 x then atan (y / x)
  else if Rlt_dec x 0 then
    (if Rle_dec 0 y then atan (y / x) + PI else atan (y / x) - PI)
  else if Rlt_dec 0 y then PI / 2
  else if Rlt_dec y 0 then - (PI / 2)
  else 0.

(** Modelled from the spec: the "single modulo-2pi wrap" of a heading into
    [[0, 2*pi)]. *)
Definition spec_wrap2pi (t : R) : R :=
  t - 2 * PI * IZR (Int_part (t / (2 * PI))).

(** The centre of the arc that [kinematic_model_step] integrates along for
    the control [u] from the pose [p]: [R = car_length / sin(2*B)] to the left
    of the heading. *)
Definition turn_center (car_length : R) (u : control) (p : pose) : R * R :=
  let B := atan (1 / 2 * tan (c_delta u)) in
  let Rad := car_length / sin (2 * B) in
  (px p - Rad * sin (ptheta p), py p + Rad * cos (ptheta p)).

(** ** Accumulated trajectory cost *)

Section Accumulation.

Variable compute_cost : LaserWanderer -> R -> pose -> LaserScan -> option R.
Variable lw : LaserWanderer.
Variable msg : LaserScan.

(** [self.compute_cost(self.deltas[n], self.rollouts[n][t], msg)] *)
Definition cost_at (n t : nat) : option R :=
  match nth_error (deltas lw) n, nth_error (rollouts lw) n with
  | Some d, Some traj =>
      match nth_error traj t with
      | Some p => compute_cost lw d p msg
      | None => None
      end
  | _, _ => None
  end.

(** [0 + cost_at n 0 + ... + cost_at n (depth - 1)], summed in loop order. *)
Fixpoint traj_cost_upto (n depth : nat) : option R :=
  match depth with
  | O => Some 0
  | S d =>
      match traj_cost_upto n d, cost_at n d with
      | Some s, Some c => Some (s + c)
      | _, _ => None
      end
  end.

End Accumulation.

(** ** [main] *)

(** The values [main] reads with [rospy.get_param]; [delta_incr] is the
    value before [main] divides it by 3. *)
Record params := mk_params {
  p_speed : R;
  p_min_delta : R;
  p_max_delta : R;
  p_delta_incr : R;
  p_dt : R;
  p_T : nat;
  p_compute_time : R;
  p_laser_offset : R;
  p_car_length : R }.

(** The planner [main] builds: [delta_incr = delta_incr / 3.0], the rollouts
    of [generate_mpc_rollouts], and (in [laser_wanderer.py]) [CAR_WIDTH] and
    [DETECTION_THRESH]; the single-ray class of [car_laser_wanderer.py] is
    given the first five arguments and does not read the others.  The
    [N x T x 3] array has [shape[1] = T]. *)
Definition main_laser_wanderer (prm : params) : LaserWanderer :=
  let delta_incr := p_delta_incr prm / 3 in
  let '(rs, ds) := generate_mpc_rollouts (p_speed prm) (p_min_delta prm)
                     (p_max_delta prm) delta_incr (p_dt prm) (p_T prm)
                     (p_car_length prm) in
  mk_lw rs (p_T prm) ds (p_speed prm) (p_compute_time prm) (p_laser_offset prm)
        (p_car_length prm) CAR_WIDTH DETECTION_THRESH.

(** ** Concrete inputs used by the examples below *)

(** The origin [current_pose = [0, 0, 0]]. *)
Definition origin : pose := mk_pose 0 0 0.

(** A planner as [main] builds it with [min_delta = -0.34],
    [max_delta = 0.34], [delta_incr = 0.34], one-step rollouts and
    [compute_time = 0]. *)
Definition lw_example : LaserWanderer :=
  mk_lw [[mk_pose 1 0 0]; [mk_pose 1 0 0]] 1
        (np_arange (-34/100) (34/100) (34/100))
        1 0 1 (33/100) CAR_WIDTH DETECTION_THRESH.

(** A scan of three beams at [-1, 0, 1] that all report no return. *)
Definition scan_clear : LaserScan := mk_scan (-1) 1 1 [PosInf; PosInf; PosInf].

(** A scan whose [angle_max] reaches past its last beam: two beams,
    [angle_increment = 3/8], field of view [[0, 1]]. *)
Definition scan_short : LaserScan := mk_scan 0 1 (3/8) [PosInf; PosInf].

(** A planner over an empty library ([np.arange] with [min_delta = max_delta]). *)
Definition lw_empty : LaserWanderer :=
  mk_lw [] 3 (np_arange (34/100) (34/100) (34/100))
        1 (9/100) 1 (33/100) CAR_WIDTH DETECTION_THRESH.

(** A clock that never advances. *)
Definition frozen_clock : nat -> R := fun _ => 0.

(** The starting values suggested in [main]'s comments: speed 1.0,
    [min_delta = -0.34], [max_delta = 0.341], [delta_incr = 0.34],
    [dt = 0.01], [T = 300], [compute_time = 0.09], [laser_offset = 1.0],
    [car_length = 0.33]. *)
Definition params_default : params :=
  mk_params 1 (-34/100) (341/1000) (34/100) (1/100) 300 (9/100) 1 (33/100).

(** [main]'s parameters for a one-delta library [np.arange(0, 0.1, 0.3/3)
    = [0]] and one-step rollouts. *)
Definition params_straight : params :=
  mk_params 1 0 (1/10) (3/10) (1/10) 1 (9/100) 1 (33/100).

(** A scan whose field of view [[2, 3]] lies beyond every [np.arctan]
    bearing. *)
Definition scan_behind : LaserScan := mk_scan 2 3 1 [PosInf].

(** ** Kinematic model *)

Lemma PI_bounds : 3 < PI <= 4.
Proof. pose proof PI2_3_2. pose proof PI_4. lra. Qed.

Lemma wrap_theta_in_range (t : R) : 0 <= t <= 2 * PI -> wrap_theta t = t.
Proof.
  intros [H0 H1]. unfold wrap_theta.
  destruct (Rlt_dec t 0); [lra|]. destruct (Rlt_dec (2 * PI) t); [lra|]. reflexivity.
Qed.

(** C9: with zero steering the heading is unchanged and the position
    advances by [speed * dt] along the current heading. *)
Theorem kinematic_zero_steering (p : pose) (speed dt wheelbase : R)
  (Hwb : 0 < wheelbase) (Htheta : 0 <= ptheta p < 2 * PI) :
  kinematic_model_step p (mk_control speed 0 dt) wheelbase =
  mk_pose (px p + speed * cos (ptheta p) * dt)
          (py p + speed * sin (ptheta p) * dt)
          (ptheta p).
Proof.
  unfold kinematic_model_step; cbn [c_delta c_speed c_dt].
  rewrite tan_0, Rmult_0_r, atan_0, Rmult_0_r, sin_0.
  replace (ptheta p + speed / wheelbase * 0 * dt) with (ptheta p) by ring.
  rewrite wrap_theta_in_range by lra.
  destruct (Req_EM_T 0 0) as [_|Hne]; [reflexivity | congruence].
Qed.

Lemma kinematic_zero_steering_witness :
  0 < 1 /\ 0 <= ptheta (mk_pose 0 0 0) < 2 * PI /\
  kinematic_model_step (mk_pose 0 0 0) (mk_control 1 0 (1 / 100)) 1 =
  mk_pose (0 + 1 * cos 0 * (1 / 100)) (0 + 1 * sin 0 * (1 / 100)) 0.
Proof.
  pose proof PI_bounds as HPI.
  split; [lra|]. split; [cbn; lra|].
  apply (kinematic_zero_steering (mk_pose 0 0 0) 1 (1 / 100) 1); cbn; lra.
Defined.

Lemma int_part_9_over_2PI : Int_part (9 / (2 * PI)) = 1%Z.
Proof.
  pose proof PI_bounds as HPI.
  symmetry. apply Int_part_spec.
  assert (Hq : 2 * PI * (9 / (2 * PI)) = 9) by (field; lra).
  set (q := 9 / (2 * PI)) in *.
  split; nra.
Qed.

(** C4: past [2*pi] the code subtracts [pi], not [2*pi].  From the heading 6
    (inside [[0, 2*pi)]), a step whose raw heading is 9 returns [9 - pi],
    whereas the single modulo-2pi wrap gives [9 - 2*pi]. *)
Theorem kinematic_wrap_upper_uses_pi :
  (forall t, 2 * PI < t -> wrap_theta t = t - PI) /\
  0 <= ptheta (mk_pose 0 0 6) < 2 * PI /\
  ptheta (kinematic_model_step (mk_pose 0 0 6) (mk_control 3 (atan 2) 1) 1) = 9 - PI /\
  spec_wrap2pi 9 = 9 - 2 * PI /\
  9 - PI <> 9 - 2 * PI.
Proof.
  pose proof PI_bounds as HPI.
  assert (Hwrap : forall t, 2 * PI < t -> wrap_theta t = t - PI).
  { intros t Ht. unfold wrap_theta.
    destruct (Rlt_dec t 0); [lra|]. destruct (Rlt_dec (2 * PI) t); [reflexivity | lra]. }
  split; [exact Hwrap|]. split; [cbn; lra|]. split.
  - unfold kinematic_model_step; cbn [c_delta c_speed c_dt ptheta].
    rewrite tan_atan.
    replace (1 / 2 * 2) with 1 by field. rewrite atan_1.
    replace (2 * (PI / 4)) with (PI / 2) by field. rewrite sin_PI2.
    replace (6 + 3 / 1 * 1 * 1) with 9 by field.
    rewrite (Hwrap 9) by lra.
    destruct (Req_EM_T (PI / 4) 0); reflexivity.
  - split.
    + unfold spec_wrap2pi. rewrite int_part_9_over_2PI. cbn [IZR IPR]. ring.
    + lra.
Qed.

(** ** Bearings *)

Lemma compute_pose_angle_origin (p : pose) :
  SingleRay._compute_pose_angle origin p = np_arctan_div (py p) (px p).
Proof.
  unfold SingleRay._compute_pose_angle, origin; cbn [px py].
  rewrite !Rminus_0_r. reflexivity.
Qed.

(** C3 (code bug): both evaluators take bearings with the one-argument ratio
    [np.arctan(dy / dx)], never a two-argument arctangent. Whenever the
    x-component is negative this differs from [atan2(dy, dx)], the angle from
    the robot's x axis asked for by [_compute_pose_angle]'s docstring and
    [compute_cost]'s comment: for the pose [(-1, 1)] the code's bearing is
    [-pi/4], the angle from the x axis is [3*pi/4]. *)
Theorem bearing_ratio_wrong_quadrant :
  (forall dy dx, dx < 0 -> np_arctan_div dy dx <> Some (spec_atan2 dy dx)) /\
  (forall p, SingleRay._compute_pose_angle origin p = np_arctan_div (py p) (px p)) /\
  (forall lw p,
     Footprint.rollout_to_laser_angle lw p =
     (np_arctan_div
        (sin (ptheta p) * (car_length lw / 2) + cos (ptheta p) * (car_width lw / 2) + py p)
        (cos (ptheta p) * (car_length lw / 2) - sin (ptheta p) * (car_width lw / 2) + px p),
      np_arctan_div
        (sin (ptheta p) * (car_length lw / 2) + cos (ptheta p) * (- (car_width lw / 2)) + py p)
        (cos (ptheta p) * (car_length lw / 2) - sin (ptheta p) * (- (car_width lw / 2)) + px p)))
  /\
  SingleRay._compute_pose_angle origin (mk_pose (-1) 1 0) = Some (- (PI / 4)) /\
  spec_atan2 1 (-1) = 3 * (PI / 4).
Proof.
  pose proof PI_bounds as HPI.
  assert (Hq : 1 / -1 = Ropp 1) by field.
  split; [|split; [|split; [|split]]].
  - intros dy dx Hdx. unfold np_arctan_div, spec_atan2.
    destruct (Req_EM_T dx 0); [lra|].
    destruct (Rlt_dec 0 dx); [lra|]. destruct (Rlt_dec dx 0); [|lra].
    destruct (Rle_dec 0 dy); intros H; injection H; lra.
  - exact compute_pose_angle_origin.
  - intros lw p. reflexivity.
  - rewrite compute_pose_angle_origin; cbn [px py]. unfold np_arctan_div.
    destruct (Req_EM_T (-1) 0); [lra|].
    rewrite Hq, atan_opp, atan_1. reflexivity.
  - unfold spec_atan2.
    destruct (Rlt_dec 0 (-1)); [lra|]. destruct (Rlt_dec (-1) 0); [|lra].
    destruct (Rle_dec 0 1); [|lra].
    rewrite Hq, atan_opp, atan_1. lra.
Qed.

(** ** Beam indices *)

Lemma py_int_nonneg (r : R) : 0 <= r -> py_int r = Int_part r.
Proof. intros H. unfold py_int. destruct (Rle_dec 0 r); [reflexivity | lra]. Qed.

Lemma Int_part_bounds (r : R) (n : nat) :
  0 <= r -> r < INR n -> (0 <= Int_part r < Z.of_nat n)%Z.
Proof.
  intros H0 H1. destruct (base_Int_part r) as [Hle Hgt].
  rewrite INR_IZR_INZ in H1. split.
  - assert (IZR (-1) < IZR (Int_part r)) by (cbn [IZR IPR]; lra).
    apply lt_IZR in H. lia.
  - apply lt_IZR. lra.
Qed.

Lemma py_index_in_bounds {A} (l : list A) (i : Z) :
  (0 <= i < Z.of_nat (length l))%Z -> exists b, py_index l i = Some b.
Proof.
  intros Hi. unfold py_index.
  destruct (Z.ltb_spec i 0); [lia|].
  destruct (nth_error l (Z.to_nat i)) eqn:E; [eauto|].
  apply nth_error_None in E. lia.
Qed.

Lemma zrange_bounds (lo hi idx : Z) : In idx (zrange lo hi) -> (lo <= idx <= hi)%Z.
Proof.
  unfold zrange. intros Hin. apply in_map_iff in Hin as [k [<- Hk]].
  apply in_seq in Hk. lia.
Qed.

Lemma beam_index_bounds (msg : LaserScan) (a : R) :
  0 < angle_increment msg ->
  angle_min msg <= a <= angle_max msg ->
  angle_max msg - angle_min msg < INR (length (ranges msg)) * angle_increment msg ->
  exists i, beam_index a msg = Some i /\
            (0 <= i < Z.of_nat (length (ranges msg)))%Z.
Proof.
  intros Hinc Ha Hlen. unfold beam_index.
  destruct (Req_EM_T (angle_increment msg) 0); [lra|].
  eexists; split; [reflexivity|].
  set (q := (a - angle_min msg) / angle_increment msg).
  assert (Hq : q * angle_increment msg = a - angle_min msg) by (unfold q; field; lra).
  assert (0 <= q) by nra.
  rewrite py_int_nonneg by lra.
  apply Int_part_bounds; [lra | nra].
Qed.

(** C2 (counterexample): the index is not clamped.  For the pose [(1, 1)] the
    bearing [pi/4] lies inside [[0, 1]], but [int((pi/4) / (3/8)) = 2] indexes
    a [ranges] of length 2 and [compute_cost] raises [IndexError]. *)
Lemma beam_index_unclamped_counterexample :
  SingleRay._compute_pose_angle origin (mk_pose 1 1 0) = Some (PI / 4) /\
  angle_min scan_short <= PI / 4 <= angle_max scan_short /\
  0 < angle_increment scan_short /\
  beam_index (PI / 4) scan_short = Some 2%Z /\
  length (ranges scan_short) = 2%nat /\
  SingleRay.compute_cost lw_example 0 (mk_pose 1 1 0) scan_short = None.
Proof.
  pose proof PI_bounds as HPI.
  assert (Hang : SingleRay._compute_pose_angle origin (mk_pose 1 1 0) = Some (PI / 4)).
  { rewrite compute_pose_angle_origin; cbn [px py]. unfold np_arctan_div.
    destruct (Req_EM_T 1 0); [lra|]. rewrite Rdiv_diag by lra. rewrite atan_1. reflexivity. }
  assert (Hidx : beam_index (PI / 4) scan_short = Some 2%Z).
  { unfold beam_index, scan_short; cbn [angle_increment angle_min].
    destruct (Req_EM_T (3 / 8) 0); [lra|]. f_equal.
    rewrite py_int_nonneg by (unfold Rdiv; pose proof PI_RGT_0; apply Rmult_le_pos; [lra | apply Rlt_le, Rinv_0_lt_compat; lra]).
    symmetry. apply Int_part_spec.
    replace ((PI / 4 - 0) / (3 / 8)) with (2 * PI / 3) by field.
    cbn [IZR IPR IPR_2]. lra. }
  split; [exact Hang|]. split; [cbn; lra|]. split; [cbn; lra|].
  split; [exact Hidx|]. split; [reflexivity|].
  unfold SingleRay.compute_cost. fold origin. rewrite Hang.
  cbn [angle_min angle_max scan_short].
  destruct (Rlt_dec (PI / 4) 0); [lra|]. destruct (Rlt_dec 1 (PI / 4)); [lra|].
  rewrite Hidx. reflexivity.
Qed.

(** C2 (amended): no clamping is done.  When [angle_increment > 0] and
    [angle_max - angle_min < length(ranges) * angle_increment], a bearing in
    [[angle_min, angle_max]] gets an index in [[0, length(ranges))], and every
    index the footprint evaluator sweeps between two such bearings is in
    bounds, so [ranges] is read without [IndexError]. *)
Theorem beam_index_in_bounds (msg : LaserScan)
  (Hinc : 0 < angle_increment msg)
  (Hlen : angle_max msg - angle_min msg < INR (length (ranges msg)) * angle_increment msg) :
  (forall a, angle_min msg <= a <= angle_max msg ->
     exists i, beam_index a msg = Some i /\
       (0 <= i < Z.of_nat (length (ranges msg)))%Z /\
       exists b, py_index (ranges msg) i = Some b) /\
  (forall a1 a2, angle_min msg <= a1 <= angle_max msg ->
     angle_min msg <= a2 <= angle_max msg ->
     exists i1 i2, beam_index a1 msg = Some i1 /\ beam_index a2 msg = Some i2 /\
       forall idx, In idx (zrange (Z.min i1 i2) (Z.max i1 i2)) ->
         (0 <= idx < Z.of_nat (length (ranges msg)))%Z /\
         exists b, py_index (ranges msg) idx = Some b).
Proof.
  split.
  - intros a Ha. destruct (beam_index_bounds msg a Hinc Ha Hlen) as [i [Hi Hb]].
    exists i. split; [exact Hi|]. split; [exact Hb|]. now apply py_index_in_bounds.
  - intros a1 a2 Ha1 Ha2.
    destruct (beam_index_bounds msg a1 Hinc Ha1 Hlen) as [i1 [Hi1 Hb1]].
    destruct (beam_index_bounds msg a2 Hinc Ha2 Hlen) as [i2 [Hi2 Hb2]].
    exists i1, i2. split; [exact Hi1|]. split; [exact Hi2|].
    intros idx Hin. apply zrange_bounds in Hin.
    assert (Hidx : (0 <= idx < Z.of_nat (length (ranges msg)))%Z) by lia.
    split; [exact Hidx|]. now apply py_index_in_bounds.
Qed.

Lemma beam_index_in_bounds_witness :
  0 < angle_increment scan_clear /\
  angle_max scan_clear - angle_min scan_clear
    < INR (length (ranges scan_clear)) * angle_increment scan_clear /\
  exists i, beam_index 0 scan_clear = Some i /\
    (0 <= i < Z.of_nat (length (ranges scan_clear)))%Z /\
    exists b, py_index (ranges scan_clear) i = Some b.
Proof.
  assert (H1 : 0 < angle_increment scan_clear) by (cbn; lra).
  assert (H2 : angle_max scan_clear - angle_min scan_clear
               < INR (length (ranges scan_clear)) * angle_increment scan_clear)
    by (cbn; lra).
  split; [exact H1|]. split; [exact H2|].
  apply (proj1 (beam_index_in_bounds scan_clear H1 H2)). cbn; lra.
Defined.

(** ** Cost evaluators *)

Lemma MAX_PENALTY_pos : 0 < MAX_PENALTY.
Proof. unfold MAX_PENALTY. lra. Qed.

Lemma hazard_prop_nonneg (k c : nat) : 0 <= INR c / INR k.
Proof.
  unfold Rdiv. apply Rmult_le_pos; [apply pos_INR|].
  destruct (Nat.eq_dec k 0) as [->|Hk].
  - cbn [INR]. rewrite Rinv_0. lra.
  - apply Rlt_le, Rinv_0_lt_compat, lt_0_INR. lia.
Qed.

Lemma hazard_penalty_nonneg (k c : nat) : 0 <= Footprint.hazard_penalty k c.
Proof.
  pose proof MAX_PENALTY_pos. pose proof (hazard_prop_nonneg k c).
  unfold Footprint.hazard_penalty.
  destruct (Nat.eqb k 1 && Nat.ltb 0 c)%bool; [lra|].
  destruct (Rle_dec DETECTION_THRESH (INR c / INR k)); lra.
Qed.

Lemma py_index_In {A} (l : list A) (i : Z) (b : A) : py_index l i = Some b -> In b l.
Proof.
  unfold py_index. destruct (i <? 0)%Z; [destruct (_ <? 0)%Z; [discriminate|]|];
    apply nth_error_In.
Qed.

Lemma too_close_finite (off dist : R) (b : beam) :
  too_close off dist b = true -> isfinite b = true.
Proof. destruct b; cbn; congruence. Qed.

Lemma count_too_close_le_length (off dist : R) (rs : list beam) (idxs : list Z) (c : nat) :
  Footprint.count_too_close off dist rs idxs = Some c -> (c <= length idxs)%nat.
Proof.
  revert c. induction idxs as [|idx t IH]; cbn; intros c H.
  - injection H as <-. lia.
  - destruct (py_index rs idx) as [b|]; [|discriminate].
    destruct (Footprint.count_too_close off dist rs t) as [c'|] eqn:E; [|discriminate].
    injection H as <-. specialize (IH c' eq_refl).
    destruct (too_close off dist b); lia.
Qed.

Lemma count_too_close_finite (off dist : R) (rs : list beam) (idxs : list Z) (c : nat) :
  Footprint.count_too_close off dist rs idxs = Some c ->
  (c <= length (filter (fun idx => match py_index rs idx with
                                   | Some b => isfinite b | None => false end) idxs))%nat.
Proof.
  revert c. induction idxs as [|idx t IH]; cbn; intros c H.
  - injection H as <-. lia.
  - destruct (py_index rs idx) as [b|]; [|discriminate].
    destruct (Footprint.count_too_close off dist rs t) as [c'|] eqn:E; [|discriminate].
    injection H as <-. specialize (IH c' eq_refl).
    destruct (too_close off dist b) eqn:Ht.
    + rewrite (too_close_finite _ _ _ Ht). cbn. lia.
    + destruct (isfinite b); cbn; lia.
Qed.

Lemma zrange_length (lo hi : Z) : (lo <= hi)%Z -> (1 <= length (zrange lo hi))%nat.
Proof. intros H. unfold zrange. rewrite length_map, length_seq. lia. Qed.

Lemma footprint_scan_checked (lw : LaserWanderer) (p : pose) (msg : LaserScan) (k c : nat) :
  Footprint.footprint_scan lw p msg = Footprint.Checked k c ->
  exists dist lo hi, (lo <= hi)%Z /\ k = length (zrange lo hi) /\
    Footprint.count_too_close (laser_offset lw) dist (ranges msg) (zrange lo hi) = Some c.
Proof.
  unfold Footprint.footprint_scan.
  destruct (Footprint.rollout_to_laser_angle lw p) as [la ra].
  destruct (_ || _)%bool; [discriminate|].
  destruct (py_min2 la ra) as [a1|]; [|discriminate].
  destruct (py_max2 la ra) as [a2|]; [|discriminate].
  destruct (beam_index a1 msg) as [i1|]; [|discriminate].
  destruct (beam_index a2 msg) as [i2|]; [|discriminate].
  destruct (Footprint.count_too_close _ _ _ _) as [c'|] eqn:E; [|discriminate].
  intros H. injection H as <- <-.
  exists (pose_distance p), (Z.min i1 i2), (Z.max i1 i2). repeat split; [lia | exact E].
Qed.

Lemma compute_cost_checked (lw : LaserWanderer) (delta : R) (p : pose) (msg : LaserScan)
  (k c : nat) :
  Footprint.footprint_scan lw p msg = Footprint.Checked k c ->
  Footprint.compute_cost lw delta p msg = Some (Rabs delta + Footprint.hazard_penalty k c).
Proof. intros H. unfold Footprint.compute_cost. rewrite H. reflexivity. Qed.

(** C8: both evaluators return at least [|delta|] whenever they return. *)
Theorem compute_cost_floor (lw : LaserWanderer) (delta : R) (p : pose) (msg : LaserScan) :
  match SingleRay.compute_cost lw delta p msg with
  | Some cost => Rabs delta <= cost | None => True end /\
  match Footprint.compute_cost lw delta p msg with
  | Some cost => Rabs delta <= cost | None => True end.
Proof.
  pose proof MAX_PENALTY_pos as HM. split.
  - unfold SingleRay.compute_cost.
    destruct (SingleRay._compute_pose_angle _ _) as [a|]; [|exact I].
    destruct (Rlt_dec a (angle_min msg)); [lra|].
    destruct (Rlt_dec (angle_max msg) a); [lra|].
    destruct (beam_index a msg) as [i|]; [|exact I].
    destruct (py_index (ranges msg) i) as [b|]; [|exact I].
    destruct (too_close _ _ _); lra.
  - unfold Footprint.compute_cost.
    destruct (Footprint.footprint_scan lw p msg) as [|k c|]; [lra| |exact I].
    pose proof (hazard_penalty_nonneg k c). lra.
Qed.

(** C7: a non-finite beam is never "too close": the single-ray evaluator
    adds nothing when its beam is non-finite, and the footprint evaluator
    counts finite beams only (so a scan of non-finite beams adds nothing). *)
Theorem nonfinite_beam_no_penalty :
  (forall off dist b, isfinite b = false -> too_close off dist b = false) /\
  (forall lw delta p msg a i b,
     SingleRay._compute_pose_angle origin p = Some a ->
     angle_min msg <= a <= angle_max msg ->
     beam_index a msg = Some i -> py_index (ranges msg) i = Some b ->
     isfinite b = false ->
     SingleRay.compute_cost lw delta p msg = Some (Rabs delta)) /\
  (forall off dist rs idxs c,
     Footprint.count_too_close off dist rs idxs = Some c ->
     (c <= length (filter (fun idx => match py_index rs idx with
                                      | Some b => isfinite b | None => false end) idxs))%nat) /\
  (forall lw delta p msg k c,
     (forall b, In b (ranges msg) -> isfinite b = false) ->
     Footprint.footprint_scan lw p msg = Footprint.Checked k c ->
     c = O /\ Footprint.compute_cost lw delta p msg = Some (Rabs delta)).
Proof.
  assert (Hnf : forall off dist b, isfinite b = false -> too_close off dist b = false).
  { intros off dist b. destruct b; cbn; congruence. }
  split; [exact Hnf|]. split; [|split].
  - intros lw delta p msg a i b Ha Hin Hi Hb Hf.
    unfold SingleRay.compute_cost. fold origin. rewrite Ha.
    destruct (Rlt_dec a (angle_min msg)); [lra|].
    destruct (Rlt_dec (angle_max msg) a); [lra|].
    rewrite Hi, Hb, Hnf by exact Hf. reflexivity.
  - exact count_too_close_finite.
  - intros lw delta p msg k c Hall Hs.
    destruct (footprint_scan_checked lw p msg k c Hs) as [dist [lo [hi [_ [_ Hc]]]]].
    apply count_too_close_finite in Hc.
    assert (Hz : forall l, filter (fun idx => match py_index (ranges msg) idx with
                                   | Some b => isfinite b | None => false end) l = []).
    { induction l as [|idx t IH]; cbn; [reflexivity|].
      destruct (py_index (ranges msg) idx) as [b|] eqn:E; [|exact IH].
      rewrite (Hall b (py_index_In _ _ _ E)). exact IH. }
    rewrite Hz in Hc. cbn in Hc. assert (c = O) as -> by lia.
    split; [reflexivity|]. rewrite (compute_cost_checked lw delta p msg k O Hs).
    f_equal. unfold Footprint.hazard_penalty.
    replace (Nat.eqb k 1 && Nat.ltb 0 0)%bool with false by (destruct (Nat.eqb k 1); reflexivity).
    cbn [INR]. unfold Rdiv. rewrite Rmult_0_l.
    destruct (Rle_dec DETECTION_THRESH 0) as [H|H]; [unfold DETECTION_THRESH in H; lra|].
    ring.
Qed.

(** C6: the footprint penalty policy, with the module's [DETECTION_THRESH]. *)
Theorem footprint_penalty_policy :
  (forall lw delta p msg,
     match Footprint.footprint_scan lw p msg with
     | Footprint.Checked k c =>
         (1 <= k)%nat /\ (c <= k)%nat /\
         Footprint.compute_cost lw delta p msg = Some (Rabs delta + Footprint.hazard_penalty k c) /\
         (k = 1%nat /\ c = 1%nat -> Footprint.hazard_penalty k c = MAX_PENALTY) /\
         (~ (k = 1%nat /\ c = 1%nat) -> DETECTION_THRESH <= INR c / INR k ->
            Footprint.hazard_penalty k c = MAX_PENALTY) /\
         (~ (k = 1%nat /\ c = 1%nat) -> INR c / INR k < DETECTION_THRESH ->
            Footprint.hazard_penalty k c = INR c / INR k * 30 /\
            Footprint.hazard_penalty k c <> MAX_PENALTY)
     | _ => True
     end) /\
  Footprint.hazard_penalty 4 2 = MAX_PENALTY.
Proof.
  split.
  - intros lw delta p msg.
    destruct (Footprint.footprint_scan lw p msg) as [|k c|] eqn:Hs; [exact I| |exact I].
    destruct (footprint_scan_checked lw p msg k c Hs) as [dist [lo [hi [Hlh [Hk Hc]]]]].
    apply count_too_close_le_length in Hc. rewrite <- Hk in Hc.
    pose proof (zrange_length lo hi Hlh) as Hk1. rewrite <- Hk in Hk1.
    split; [exact Hk1|]. split; [exact Hc|].
    split; [exact (compute_cost_checked lw delta p msg k c Hs)|].
    unfold Footprint.hazard_penalty.
    assert (Hb : forall (H : ~ (k = 1%nat /\ c = 1%nat)),
               (Nat.eqb k 1 && Nat.ltb 0 c)%bool = false).
    { intros H. destruct (Nat.eqb_spec k 1), (Nat.ltb_spec 0 c); cbn; try reflexivity.
      exfalso. apply H. lia. }
    split; [|split].
    + intros [-> ->]. reflexivity.
    + intros H Hge. rewrite (Hb H).
      destruct (Rle_dec DETECTION_THRESH (INR c / INR k)); [reflexivity | lra].
    + intros H Hlt. rewrite (Hb H).
      destruct (Rle_dec DETECTION_THRESH (INR c / INR k)); [lra|].
      split; [reflexivity|]. unfold DETECTION_THRESH, MAX_PENALTY in *.
      pose proof (hazard_prop_nonneg k c). lra.
  - unfold Footprint.hazard_penalty. cbn [Nat.eqb andb].
    replace (INR 2 / INR 4) with (1 / 2) by (cbn [INR]; field).
    destruct (Rle_dec DETECTION_THRESH (1 / 2)) as [_|H]; [reflexivity|].
    unfold DETECTION_THRESH in H. lra.
Qed.

(** ** Planner loop *)

Section PlannerFacts.

Variable cost_fn : LaserWanderer -> R -> pose -> LaserScan -> option R.

Lemma list_set_length (l : list R) (n : nat) (v : R) : length (list_set l n v) = length l.
Proof.
  revert n. induction l as [|x t IH]; intros [|n]; cbn; try reflexivity. now rewrite IH.
Qed.

Lemma depth_pass_length (lw : LaserWanderer) (msg : LaserScan) (ns : list nat)
  (d : nat) (acc acc' : list R) :
  depth_pass cost_fn lw msg ns d acc = Some acc' -> length acc' = length acc.
Proof.
  revert acc. induction ns as [|n t IH]; cbn; intros acc H.
  - now injection H as <-.
  - destruct (update_cost cost_fn lw msg d acc n) as [dc|] eqn:E; [|discriminate].
    rewrite (IH dc H). unfold update_cost in E.
    destruct (nth_error acc n), (nth_error (deltas lw) n), (nth_error (rollouts lw) n);
      try discriminate.
    destruct (nth_error _ d); [|discriminate].
    destruct (cost_fn _ _ _ _); [|discriminate].
    injection E as <-. apply list_set_length.
Qed.

Lemma sweep_length (lw : LaserWanderer) (msg : LaserScan) (now : nat -> R)
  (fuel k d : nat) (acc acc' : list R) (d' k' : nat) :
  sweep cost_fn lw msg now fuel k d acc = Some (acc', d', k') -> length acc' = length acc.
Proof.
  revert k d acc. induction fuel as [|f IH]; cbn [sweep]; intros k d acc H.
  - now injection H as <- _ _.
  - destruct (Rlt_dec _ _); [|now injection H as <- _ _].
    destruct (Nat.ltb d (rollouts_T lw)); [|now injection H as <- _ _].
    destruct (depth_pass _ _ _ _ _ _) as [dc|] eqn:E; [|discriminate].
    rewrite (IH _ _ _ H). exact (depth_pass_length lw msg _ _ _ _ E).
Qed.

(** With no time left at the first loop test the sweep does nothing. *)
Lemma wander_sweep_no_time (lw : LaserWanderer) (msg : LaserScan) (now : nat -> R) :
  compute_time lw = 0 -> now O <= now 1%nat ->
  wander_sweep cost_fn lw msg now = Some (repeat 0 (length (deltas lw)), O, 1%nat).
Proof.
  intros H0 Hclk. unfold wander_sweep. cbn [sweep].
  destruct (Rlt_dec (now 1%nat - now O) (compute_time lw)); [lra | reflexivity].
Qed.

Lemma argmin_from_repeat (m i bi : nat) (x : R) : argmin_from (repeat x m) i bi x = bi.
Proof.
  revert i. induction m as [|m IH]; cbn; intros i; [reflexivity|].
  destruct (Rlt_dec x x); [lra | apply IH].
Qed.

Lemma argmin_from_spec (t pre : list R) (bi : nat) (bv : R) :
  nth_error pre bi = Some bv ->
  (forall j v, nth_error pre j = Some v -> bv <= v) ->
  (forall j v, (j < bi)%nat -> nth_error pre j = Some v -> bv < v) ->
  exists m, nth_error (pre ++ t) (argmin_from t (length pre) bi bv) = Some m /\
    (forall j v, nth_error (pre ++ t) j = Some v -> m <= v) /\
    (forall j v, (j < argmin_from t (length pre) bi bv)%nat ->
                 nth_error (pre ++ t) j = Some v -> m < v).
Proof.
  revert pre bi bv. induction t as [|x t IH]; intros pre bi bv Hb Hle Hlt; cbn.
  - rewrite app_nil_r. exists bv. auto.
  - assert (Happ : pre ++ x :: t = (pre ++ [x]) ++ t) by (rewrite <- app_assoc; reflexivity).
    assert (Hlen : S (length pre) = length (pre ++ [x])) by (rewrite length_app; cbn; lia).
    assert (Hcases : forall j v, nth_error (pre ++ [x]) j = Some v ->
                       nth_error pre j = Some v \/ (j = length pre /\ v = x)).
    { intros j v Hj. destruct (Nat.lt_ge_cases j (length pre)).
      - left. rewrite nth_error_app1 in Hj by lia. exact Hj.
      - right. rewrite nth_error_app2 in Hj by lia.
        destruct (j - length pre)%nat eqn:E; cbn in Hj.
        + injection Hj as <-. split; [lia | reflexivity].
        + destruct n; discriminate. }
    assert (Hbi : (bi < length pre)%nat) by (apply nth_error_Some; congruence).
    rewrite Happ, Hlen.
    destruct (Rlt_dec x bv) as [Hx|Hx].
    + apply IH.
      * rewrite nth_error_app2 by lia. rewrite Nat.sub_diag. reflexivity.
      * intros j v Hj. destruct (Hcases j v Hj) as [Hp|[_ ->]]; [|lra].
        specialize (Hle j v Hp). lra.
      * intros j v Hj Hv. rewrite nth_error_app1 in Hv by lia.
        specialize (Hle j v Hv). lra.
    + apply IH.
      * rewrite nth_error_app1 by lia. exact Hb.
      * intros j v Hj. destruct (Hcases j v Hj) as [Hp|[_ ->]]; [|lra].
        exact (Hle j v Hp).
      * intros j v Hj Hv. rewrite nth_error_app1 in Hv by lia. exact (Hlt j v Hj Hv).
Qed.

(** [np.argmin] returns the first index of a minimal entry. *)
Lemma np_argmin_spec (l : list R) (i : nat) :
  np_argmin l = Some i ->
  exists m, nth_error l i = Some m /\
    (forall j v, nth_error l j = Some v -> m <= v) /\
    (forall j v, (j < i)%nat -> nth_error l j = Some v -> m < v).
Proof.
  destruct l as [|x t]; cbn; [discriminate|]. intros H. injection H as <-.
  apply (argmin_from_spec t [x] 0 x).
  - reflexivity.
  - intros [|j] v Hj; cbn in Hj; [injection Hj as <-; lra | destruct j; discriminate].
  - intros j v Hj. lia.
Qed.

Lemma np_arange_nth (start stop step : R) (j : nat) (d : R) :
  nth_error (np_arange start stop step) j = Some d -> d = start + INR j * step.
Proof.
  unfold np_arange. rewrite nth_error_map.
  destruct (nth_error (seq 0 _) j) as [n|] eqn:E; cbn; [|discriminate].
  intros H. injection H as <-.
  assert (Hj : (j < length (seq 0 (Z.to_nat (py_ceil ((stop - start) / step)))))%nat)
    by (apply nth_error_Some; congruence).
  rewrite length_seq in Hj. rewrite nth_error_seq in E.
  destruct (Nat.ltb_spec j (Z.to_nat (py_ceil ((stop - start) / step)))); [|lia].
  injection E as <-. reflexivity.
Qed.

End PlannerFacts.

Lemma Int_part_IZR (z : Z) : Int_part (IZR z) = z.
Proof. symmetry. apply Int_part_spec. lra. Qed.

Lemma np_arange_example : np_arange (-34/100) (34/100) (34/100) = [-34/100; 0].
Proof.
  unfold np_arange, py_ceil.
  replace (- ((34 / 100 - -34 / 100) / (34 / 100))) with (IZR (-2)) by (cbn [IZR IPR IPR_2]; field).
  rewrite Int_part_IZR. replace (Z.to_nat (- -2)) with 2%nat by reflexivity. cbn [seq map].
  replace (-34 / 100 + INR 0 * (34 / 100)) with (-34 / 100) by (cbn [INR]; field).
  replace (-34 / 100 + INR 1 * (34 / 100)) with 0 by (cbn [INR]; field).
  reflexivity.
Qed.

Lemma np_arange_empty : np_arange (34/100) (34/100) (34/100) = [].
Proof.
  unfold np_arange, py_ceil.
  replace (- ((34 / 100 - 34 / 100) / (34 / 100))) with (IZR 0) by (cbn [IZR]; field).
  rewrite Int_part_IZR. reflexivity.
Qed.

(** The single-ray evaluator on [lw_example]'s first pose: bearing 0, the
    middle beam (no return), cost [|-0.34|]. *)
Lemma single_ray_cost_example :
  SingleRay.compute_cost lw_example (-34/100) (mk_pose 1 0 0) scan_clear = Some (34/100).
Proof.
  unfold SingleRay.compute_cost. fold origin. rewrite compute_pose_angle_origin.
  cbn [px py]. unfold np_arctan_div.
  destruct (Req_EM_T 1 0); [lra|].
  replace (0 / 1) with 0 by field. rewrite atan_0.
  cbn [angle_min angle_max scan_clear].
  destruct (Rlt_dec 0 (-1)); [lra|]. destruct (Rlt_dec 1 0); [lra|].
  unfold beam_index. cbn [angle_increment angle_min scan_clear].
  destruct (Req_EM_T 1 0); [lra|].
  replace ((0 - -1) / 1) with (IZR 1) by (cbn [IZR IPR]; field).
  rewrite py_int_nonneg by (cbn [IZR IPR]; lra). rewrite Int_part_IZR.
  cbn [py_index ranges scan_clear nth_error length Z.of_nat Z.ltb Z.compare Z.to_nat].
  change (PosDef.Pos.to_nat 1) with 1%nat. cbn [nth_error too_close].
  rewrite Rabs_left by lra. f_equal. field.
Qed.

Lemma lw_example_run :
  wander_cb SingleRay.compute_cost lw_example scan_clear frozen_clock = Publish (-34/100) 1.
Proof.
  unfold wander_cb.
  rewrite (wander_sweep_no_time SingleRay.compute_cost lw_example scan_clear frozen_clock)
    by (unfold frozen_clock; cbn; lra).
  cbn [deltas lw_example]. rewrite np_arange_example.
  cbn [length repeat np_argmin argmin_from]. destruct (Rlt_dec 0 0); [lra|]. reflexivity.
Qed.

(** C1 (counterexample): with [compute_time = 0] the loop test
    [now - start < compute_time] fails before depth 0, so the accumulators
    stay [[0; 0]] while the depth-0 cost of trajectory 0 is [0.34]. *)
Lemma wander_zero_budget_counterexample :
  compute_time lw_example = 0 /\
  wander_sweep SingleRay.compute_cost lw_example scan_clear frozen_clock = Some ([0; 0], O, 1%nat) /\
  nth_error (deltas lw_example) 0 = Some (-34/100) /\
  nth_error (rollouts lw_example) 0 = Some [mk_pose 1 0 0] /\
  SingleRay.compute_cost lw_example (-34/100) (mk_pose 1 0 0) scan_clear = Some (34/100) /\
  34/100 <> 0.
Proof.
  split; [reflexivity|]. split.
  - rewrite (wander_sweep_no_time SingleRay.compute_cost lw_example scan_clear frozen_clock)
      by (unfold frozen_clock; cbn; lra).
    cbn [deltas lw_example]. rewrite np_arange_example. reflexivity.
  - split; [cbn [deltas lw_example]; rewrite np_arange_example; reflexivity|].
    split; [reflexivity|]. split; [exact single_ray_cost_example | lra].
Qed.

(** C1 (amended): with [compute_time = 0] and a clock that does not run
    backwards, no depth is evaluated: every accumulator stays 0 and
    [wander_cb] publishes [deltas[0]] (the argmin of an all-zero vector), or
    raises on an empty library.  This holds for either evaluator. *)
Theorem wander_zero_budget
  (cost_fn : LaserWanderer -> R -> pose -> LaserScan -> option R)
  (lw : LaserWanderer) (msg : LaserScan) (now : nat -> R)
  (Hbudget : compute_time lw = 0) (Hclock : now O <= now 1%nat) :
  wander_sweep cost_fn lw msg now = Some (repeat 0 (length (deltas lw)), O, 1%nat) /\
  wander_cb cost_fn lw msg now =
    match deltas lw with [] => Raise | d :: _ => Publish d (speed lw) end.
Proof.
  pose proof (wander_sweep_no_time cost_fn lw msg now Hbudget Hclock) as Hs.
  split; [exact Hs|]. unfold wander_cb. rewrite Hs.
  destruct (deltas lw) as [|d t]; cbn [length repeat np_argmin]; [reflexivity|].
  rewrite argmin_from_repeat. reflexivity.
Qed.

Lemma wander_zero_budget_witness :
  compute_time lw_example = 0 /\ frozen_clock O <= frozen_clock 1%nat /\
  wander_cb Footprint.compute_cost lw_example scan_clear frozen_clock =
    match deltas lw_example with [] => Raise | d :: _ => Publish d (speed lw_example) end.
Proof.
  assert (H0 : compute_time lw_example = 0) by reflexivity.
  assert (H1 : frozen_clock O <= frozen_clock 1%nat) by (unfold frozen_clock; lra).
  split; [exact H0|]. split; [exact H1|].
  exact (proj2 (wander_zero_budget Footprint.compute_cost lw_example scan_clear
                  frozen_clock H0 H1)).
Defined.

(** C5: on an empty library [np.argmin] of the empty cost vector raises, so
    no drive command is published in that cycle (either evaluator). *)
Theorem wander_empty_library_no_publish
  (cost_fn : LaserWanderer -> R -> pose -> LaserScan -> option R)
  (lw : LaserWanderer) (msg : LaserScan) (now : nat -> R)
  (Hempty : deltas lw = []) :
  wander_cb cost_fn lw msg now = Raise.
Proof.
  unfold wander_cb.
  destruct (wander_sweep cost_fn lw msg now) as [[[acc d] k]|] eqn:E; [|reflexivity].
  unfold wander_sweep in E. apply sweep_length in E.
  rewrite repeat_length, Hempty in E. destruct acc; [reflexivity | discriminate].
Qed.

Lemma wander_empty_library_no_publish_witness :
  deltas lw_empty = [] /\
  wander_cb SingleRay.compute_cost lw_empty scan_clear frozen_clock = Raise.
Proof.
  assert (H : deltas lw_empty = []) by exact np_arange_empty.
  split; [exact H|].
  exact (wander_empty_library_no_publish SingleRay.compute_cost lw_empty scan_clear
           frozen_clock H).
Defined.

(** C10: a published steering angle is [deltas[i]] for the first index [i]
    of a minimal accumulator; with the ascending library of [np.arange]
    every other index tied at the minimum has a larger delta. *)
Theorem wander_tie_break_first_index
  (cost_fn : LaserWanderer -> R -> pose -> LaserScan -> option R)
  (lw : LaserWanderer) (msg : LaserScan) (now : nat -> R) (start stop incr : R)
  (Hincr : 0 < incr) (Hlib : deltas lw = np_arange start stop incr)
  (steer spd : R) (Hpub : wander_cb cost_fn lw msg now = Publish steer spd) :
  exists acc depth k i m,
    wander_sweep cost_fn lw msg now = Some (acc, depth, k) /\
    np_argmin acc = Some i /\ nth_error acc i = Some m /\
    nth_error (deltas lw) i = Some steer /\ spd = speed lw /\
    (forall j v, nth_error acc j = Some v -> m <= v) /\
    (forall j v, (j < i)%nat -> nth_error acc j = Some v -> m < v) /\
    (forall j dj, nth_error acc j = Some m -> nth_error (deltas lw) j = Some dj ->
       j <> i -> steer < dj).
Proof.
  unfold wander_cb in Hpub.
  destruct (wander_sweep cost_fn lw msg now) as [[[acc depth] k]|] eqn:E; [|discriminate].
  destruct (np_argmin acc) as [i|] eqn:Ei; [|discriminate].
  destruct (nth_error (deltas lw) i) as [d0|] eqn:Ed; [|discriminate].
  injection Hpub as <- <-.
  destruct (np_argmin_spec acc i Ei) as [m [Hm [Hle Hlt]]].
  exists acc, depth, k, i, m. repeat split; auto.
  intros j dj Hj Hdj Hne.
  destruct (Nat.lt_total j i) as [Hji|[Hji|Hji]].
  - specialize (Hlt j m Hji Hj). lra.
  - congruence.
  - rewrite Hlib in Ed, Hdj.
    rewrite (np_arange_nth _ _ _ _ _ Ed), (np_arange_nth _ _ _ _ _ Hdj).
    apply lt_INR in Hji. nra.
Qed.

Lemma wander_tie_break_first_index_witness :
  0 < 34/100 /\
  deltas lw_example = np_arange (-34/100) (34/100) (34/100) /\
  wander_cb SingleRay.compute_cost lw_example scan_clear frozen_clock = Publish (-34/100) 1 /\
  exists acc depth k i m,
    wander_sweep SingleRay.compute_cost lw_example scan_clear frozen_clock
      = Some (acc, depth, k) /\
    np_argmin acc = Some i /\ nth_error acc i = Some m /\
    nth_error (deltas lw_example) i = Some (-34/100) /\ 1 = speed lw_example /\
    (forall j v, nth_error acc j = Some v -> m <= v) /\
    (forall j v, (j < i)%nat -> nth_error acc j = Some v -> m < v) /\
    (forall j dj, nth_error acc j = Some m -> nth_error (deltas lw_example) j = Some dj ->
       j <> i -> -34/100 < dj).
Proof.
  assert (H0 : 0 < 34/100) by lra.
  assert (H1 : deltas lw_example = np_arange (-34/100) (34/100) (34/100)) by reflexivity.
  split; [exact H0|]. split; [exact H1|]. split; [exact lw_example_run|].
  exact (wander_tie_break_first_index SingleRay.compute_cost lw_example scan_clear
           frozen_clock (-34/100) (34/100) (34/100) H0 H1 (-34/100) 1 lw_example_run).
Defined.

(** ** Rollouts and the trajectory library *)

Lemma zero_steering_step (p : pose) (v dt L : R) :
  0 <= ptheta p <= 2 * PI ->
  kinematic_model_step p (mk_control v 0 dt) L =
  mk_pose (px p + v * cos (ptheta p) * dt) (py p + v * sin (ptheta p) * dt) (ptheta p).
Proof.
  intros Ht. unfold kinematic_model_step; cbn [c_delta c_speed c_dt].
  rewrite tan_0, Rmult_0_r, atan_0, Rmult_0_r, sin_0.
  replace (ptheta p + v / L * 0 * dt) with (ptheta p) by ring.
  rewrite wrap_theta_in_range by lra.
  destruct (Req_EM_T 0 0) as [_|Hne]; [reflexivity | congruence].
Qed.

Lemma generate_rollout_length (init : pose) (controls : list control) (L : R) :
  length (generate_rollout init controls L) = length controls.
Proof.
  revert init. induction controls as [|u us IH]; intros init; cbn; [reflexivity|].
  now rewrite IH.
Qed.

Lemma generate_mpc_rollouts_shape_aux (speed min_delta max_delta delta_incr dt : R)
  (T : nat) (L : R) :
  length (fst (generate_mpc_rollouts speed min_delta max_delta delta_incr dt T L)) =
  length (snd (generate_mpc_rollouts speed min_delta max_delta delta_incr dt T L)) /\
  (forall i traj,
     nth_error (fst (generate_mpc_rollouts speed min_delta max_delta delta_incr dt T L)) i
       = Some traj ->
     length traj = T /\
     exists d, nth_error (snd (generate_mpc_rollouts speed min_delta max_delta delta_incr dt T L)) i
                 = Some d /\
               traj = generate_rollout (mk_pose 0 0 0) (repeat (mk_control speed d dt) T) L).
Proof.
  unfold generate_mpc_rollouts; cbn [fst snd]. split.
  - apply length_map.
  - intros i traj H. rewrite nth_error_map in H.
    destruct (nth_error (np_arange min_delta max_delta delta_incr) i) as [d|]; [|discriminate].
    cbn in H. injection H as <-. split.
    + rewrite generate_rollout_length. apply repeat_length.
    + exists d. split; reflexivity.
Qed.


(** ** Kinematic model *)

Lemma wrap_theta_range (t : R) : - PI <= t <= 3 * PI -> 0 <= wrap_theta t <= 2 * PI.
Proof.
  intros Ht. pose proof PI_bounds. unfold wrap_theta.
  destruct (Rlt_dec t 0); [lra|]. destruct (Rlt_dec (2 * PI) t); lra.
Qed.

Lemma Rabs_le_bounds (x a : R) : Rabs x <= a -> - a <= x <= a.
Proof. unfold Rabs. destruct (Rcase_abs x); lra. Qed.

Lemma heading_increment_bound (v L s dt : R) :
  0 < L -> -1 <= s <= 1 -> Rabs (v * dt) <= PI * L ->
  - PI <= v / L * s * dt <= PI.
Proof.
  intros HL Hs Hv.
  assert (Hx : v / L * s * dt * L = (v * dt) * s) by (field; lra).
  assert (Has : Rabs ((v * dt) * s) <= Rabs (v * dt)).
  { rewrite Rabs_mult. assert (Rabs s <= 1) by (apply Rabs_le; lra).
    pose proof (Rabs_pos (v * dt)). nra. }
  apply Rabs_le_bounds in Has. apply Rabs_le_bounds in Hv.
  split; apply (Rmult_le_reg_r L); nra.
Qed.

Lemma kinematic_step_heading_range (p : pose) (u : control) (L : R) :
  0 < L -> 0 <= ptheta p <= 2 * PI -> Rabs (c_speed u * c_dt u) <= PI * L ->
  0 <= ptheta (kinematic_model_step p u L) <= 2 * PI.
Proof.
  intros HL Hp Hu.
  pose proof (heading_increment_bound (c_speed u) L
                (sin (2 * atan (1 / 2 * tan (c_delta u)))) (c_dt u) HL
                (SIN_bound _) Hu) as Hb.
  pose proof PI_bounds.
  assert (Hw := wrap_theta_range
                  (ptheta p + c_speed u / L * sin (2 * atan (1 / 2 * tan (c_delta u))) * c_dt u)).
  unfold kinematic_model_step; cbv zeta.
  destruct (Req_EM_T _ 0); cbn [ptheta]; apply Hw; lra.
Qed.

(** The heading stays in [[0, 2*pi]] along a rollout: from a start heading in
    that range, with a positive wheelbase and each control turning by at most
    [pi] per step ([|speed * dt| <= pi * car_length]), every pose of
    [generate_rollout] has its heading in [[0, 2*pi]]; the upper end is
    reachable, since the wrap only acts above [2*pi]. *)
Theorem rollout_heading_range (init : pose) (controls : list control) (L : R)
  (HL : 0 < L) (Hinit : 0 <= ptheta init <= 2 * PI)
  (Hturn : Forall (fun u => Rabs (c_speed u * c_dt u) <= PI * L) controls) :
  Forall (fun q => 0 <= ptheta q <= 2 * PI) (generate_rollout init controls L).
Proof.
  revert init Hinit. induction Hturn as [|u us Hu Hus IH]; intros init Hinit; cbn.
  - constructor.
  - pose proof (kinematic_step_heading_range init u L HL Hinit Hu) as Hs.
    constructor; [exact Hs | apply IH, Hs].
Qed.

Lemma rollout_heading_range_witness :
  0 < 33/100 /\ 0 <= ptheta (mk_pose 0 0 0) <= 2 * PI /\
  Forall (fun u => Rabs (c_speed u * c_dt u) <= PI * (33/100)) [mk_control 1 (34/100) (1/100)] /\
  Forall (fun q => 0 <= ptheta q <= 2 * PI)
    (generate_rollout (mk_pose 0 0 0) [mk_control 1 (34/100) (1/100)] (33/100)).
Proof.
  pose proof PI_bounds as Hpi.
  assert (HL : 0 < 33/100) by lra.
  assert (Hi : 0 <= ptheta (mk_pose 0 0 0) <= 2 * PI) by (cbn; lra).
  assert (Hc : Forall (fun u => Rabs (c_speed u * c_dt u) <= PI * (33/100))
                 [mk_control 1 (34/100) (1/100)]).
  { constructor; [|constructor]. cbn [c_speed c_dt].
    rewrite Rabs_right by lra. lra. }
  split; [exact HL|]. split; [exact Hi|]. split; [exact Hc|].
  exact (rollout_heading_range _ _ _ HL Hi Hc).
Defined.

Lemma turn_center_step (p : pose) (u : control) (L : R) :
  atan (1 / 2 * tan (c_delta u)) <> 0 ->
  turn_center L u (kinematic_model_step p u L) = turn_center L u p.
Proof.
  intros HB. unfold turn_center, kinematic_model_step; cbv zeta.
  destruct (Req_EM_T _ 0) as [E|_]; [contradiction|].
  cbn [px py ptheta]. f_equal; ring.
Qed.

(** With a steering angle whose slip angle [B = atan(tan(delta)/2)] is not
    zero, a rollout of one repeated control follows a circle: every pose has
    the turning centre of the initial pose as its own, and lies at distance
    [|car_length / sin(2*B)|] from it. This holds through the heading wrap,
    as the position update uses the wrapped heading. The wheelbase is
    nonzero, as the source divides by it. *)
Theorem constant_control_rollout_on_circle (init : pose) (u : control) (L : R)
  (T : nat) (HL : L <> 0) (HB : atan (1 / 2 * tan (c_delta u)) <> 0) :
  forall q, In q (generate_rollout init (repeat u T) L) ->
    turn_center L u q = turn_center L u init /\
    Rsqr (px q - fst (turn_center L u init)) + Rsqr (py q - snd (turn_center L u init))
      = Rsqr (L / sin (2 * atan (1 / 2 * tan (c_delta u)))).
Proof.
  revert init. induction T as [|T IH]; intros init q Hq; [destruct Hq|].
  cbn in Hq. destruct Hq as [<- | Hq].
  - rewrite turn_center_step by exact HB. split; [reflexivity|].
    rewrite <- (turn_center_step init u L HB). unfold turn_center; cbn [fst snd].
    set (Rad := L / sin (2 * atan (1 / 2 * tan (c_delta u)))).
    set (t := ptheta (kinematic_model_step init u L)).
    pose proof (sin2_cos2 t) as Hsc. unfold Rsqr in *. nra.
  - destruct (IH _ q Hq) as [Hc Hd].
    rewrite turn_center_step in Hc, Hd by exact HB. split; assumption.
Qed.

Lemma constant_control_rollout_on_circle_witness :
  (1 : R) <> 0 /\
  atan (1 / 2 * tan (c_delta (mk_control 1 (atan 2) (1/10)))) <> 0 /\
  forall q, In q (generate_rollout (mk_pose 0 0 0) (repeat (mk_control 1 (atan 2) (1/10)) 5) 1) ->
    turn_center 1 (mk_control 1 (atan 2) (1/10)) q
      = turn_center 1 (mk_control 1 (atan 2) (1/10)) (mk_pose 0 0 0) /\
    Rsqr (px q - fst (turn_center 1 (mk_control 1 (atan 2) (1/10)) (mk_pose 0 0 0)))
      + Rsqr (py q - snd (turn_center 1 (mk_control 1 (atan 2) (1/10)) (mk_pose 0 0 0)))
      = Rsqr (1 / sin (2 * atan (1 / 2 * tan (c_delta (mk_control 1 (atan 2) (1/10)))))).
Proof.
  assert (HB : atan (1 / 2 * tan (c_delta (mk_control 1 (atan 2) (1/10)))) <> 0).
  { cbn [c_delta]. rewrite tan_atan. replace (1 / 2 * 2) with 1 by field.
    rewrite atan_1. pose proof PI_RGT_0. lra. }
  assert (HL : (1 : R) <> 0) by lra.
  split; [exact HL|]. split; [exact HB|].
  exact (constant_control_rollout_on_circle _ _ _ 5 HL HB).
Defined.

Lemma straight_rollout_from (x v dt L : R) (T : nat) :
  generate_rollout (mk_pose x 0 0) (repeat (mk_control v 0 dt) T) L =
  map (fun t => mk_pose (x + INR (S t) * (v * dt)) 0 0) (seq 0 T).
Proof.
  revert x. induction T as [|T IH]; intros x; [reflexivity|].
  cbn [repeat generate_rollout].
  rewrite zero_steering_step by (cbn [ptheta]; pose proof PI_bounds; lra).
  cbn [px py ptheta]. rewrite cos_0, sin_0.
  replace (mk_pose (x + v * 1 * dt) (0 + v * 0 * dt) 0) with (mk_pose (x + v * dt) 0 0)
    by (f_equal; ring).
  rewrite IH. cbn [seq map]. f_equal; [f_equal; cbn [INR]; ring|].
  rewrite <- seq_shift, map_map. apply map_ext. intros t. f_equal.
  rewrite !S_INR. ring.
Qed.

(** Driving straight: the rollout of [T] copies of [[speed, 0, dt]] from
    [(0, 0, 0)] is the line of poses [((t+1) * speed * dt, 0, 0)] for
    [t = 0 .. T-1], for any nonzero wheelbase. *)
Theorem straight_rollout (v dt L : R) (T : nat) (HL : L <> 0) :
  generate_rollout (mk_pose 0 0 0) (repeat (mk_control v 0 dt) T) L =
  map (fun t => mk_pose (INR (S t) * (v * dt)) 0 0) (seq 0 T).
Proof.
  rewrite straight_rollout_from. apply map_ext. intros t. f_equal. ring.
Qed.

Lemma straight_rollout_witness :
  (33/100 : R) <> 0 /\
  generate_rollout (mk_pose 0 0 0) (repeat (mk_control 1 0 (1/100)) 300) (33/100) =
  map (fun t => mk_pose (INR (S t) * (1 * (1/100))) 0 0) (seq 0 300).
Proof.
  assert (HL : (33/100 : R) <> 0) by lra.
  split; [exact HL|]. exact (straight_rollout 1 (1/100) (33/100) 300 HL).
Defined.

(** ** The planner loop: what the accumulators hold *)

Section SweepFacts.

Variable cost_fn : LaserWanderer -> R -> pose -> LaserScan -> option R.

Lemma update_cost_eq (lw : LaserWanderer) (msg : LaserScan) (d : nat) (acc : list R) (n : nat) :
  update_cost cost_fn lw msg d acc n =
  match nth_error acc n with
  | Some a =>
      match cost_at cost_fn lw msg n d with
      | Some c => Some (list_set acc n (a + c))
      | None => None
      end
  | None => None
  end.
Proof.
  unfold update_cost, cost_at.
  destruct (nth_error acc n), (nth_error (deltas lw) n), (nth_error (rollouts lw) n);
    try reflexivity.
  all: destruct (nth_error _ d); try reflexivity.
  all: destruct (cost_fn _ _ _ _); reflexivity.
Qed.

Lemma list_set_nth_same (l : list R) (n : nat) (v : R) :
  (n < length l)%nat -> nth_error (list_set l n v) n = Some v.
Proof.
  revert n. induction l as [|x t IH]; intros [|n] H; cbn in *; try lia; [reflexivity|].
  apply IH. lia.
Qed.

Lemma list_set_nth_other (l : list R) (n : nat) (v : R) (j : nat) :
  j <> n -> nth_error (list_set l n v) j = nth_error l j.
Proof.
  revert n j. induction l as [|x t IH]; intros [|n] [|j] H; cbn; try reflexivity; try lia.
  apply IH. lia.
Qed.

Lemma depth_pass_seq (lw : LaserWanderer) (msg : LaserScan) (d : nat) :
  forall m s acc acc',
    depth_pass cost_fn lw msg (seq s m) d acc = Some acc' ->
    (forall j, (s <= j < s + m)%nat ->
       exists a c, nth_error acc j = Some a /\ cost_at cost_fn lw msg j d = Some c /\
                   nth_error acc' j = Some (a + c)) /\
    (forall j, (j < s \/ s + m <= j)%nat -> nth_error acc' j = nth_error acc j).
Proof.
  induction m as [|m IH]; intros s acc acc' H; cbn [seq depth_pass] in H.
  - injection H as <-. split; [intros j Hj; lia | reflexivity].
  - rewrite update_cost_eq in H.
    destruct (nth_error acc s) as [a|] eqn:Ea; [|discriminate].
    destruct (cost_at cost_fn lw msg s d) as [c|] eqn:Ec; [|discriminate].
    assert (Hs : (s < length acc)%nat) by (apply nth_error_Some; congruence).
    destruct (IH _ _ _ H) as [H1 H2]. split.
    + intros j Hj. destruct (Nat.eq_dec j s) as [->|Hne].
      * exists a, c. split; [exact Ea|]. split; [exact Ec|].
        rewrite H2 by lia. apply list_set_nth_same. exact Hs.
      * destruct (H1 j ltac:(lia)) as [a' [c' [Ha' [Hc' Hj']]]].
        rewrite list_set_nth_other in Ha' by exact Hne.
        exists a', c'. auto.
    + intros j Hj. rewrite H2 by lia. apply list_set_nth_other. lia.
Qed.

Lemma depth_pass_total (lw : LaserWanderer) (msg : LaserScan) (d : nat) :
  forall m s acc,
    (forall j, (s <= j < s + m)%nat ->
       (j < length acc)%nat /\ cost_at cost_fn lw msg j d <> None) ->
    depth_pass cost_fn lw msg (seq s m) d acc <> None.
Proof.
  induction m as [|m IH]; intros s acc H; cbn [seq depth_pass]; [discriminate|].
  rewrite update_cost_eq.
  destruct (H s ltac:(lia)) as [Hs Hc].
  destruct (nth_error acc s) as [a|] eqn:Ea; [|apply nth_error_Some in Hs; contradiction].
  destruct (cost_at cost_fn lw msg s d) as [c|]; [|contradiction].
  apply IH. intros j Hj. rewrite list_set_length. apply H. lia.
Qed.

Lemma sweep_accumulates_gen (lw : LaserWanderer) (msg : LaserScan) (now : nat -> R)
  (Hlen : length (deltas lw) = length (rollouts lw)) :
  forall fuel k d acc acc' d' k',
    (d <= rollouts_T lw)%nat -> length acc = length (deltas lw) ->
    (forall n, (n < length acc)%nat -> nth_error acc n = traj_cost_upto cost_fn lw msg n d) ->
    sweep cost_fn lw msg now fuel k d acc = Some (acc', d', k') ->
    (d' <= rollouts_T lw)%nat /\ length acc' = length (deltas lw) /\
    (forall n, (n < length acc')%nat -> nth_error acc' n = traj_cost_upto cost_fn lw msg n d').
Proof.
  induction fuel as [|f IH]; intros k d acc acc' d' k' Hd Hl Hinv H; cbn [sweep] in H.
  - injection H as <- <- _. auto.
  - destruct (Rlt_dec _ _); [|injection H as <- <- _; auto].
    destruct (Nat.ltb d (rollouts_T lw)) eqn:Hlt; [|injection H as <- <- _; auto].
    apply Nat.ltb_lt in Hlt.
    destruct (depth_pass cost_fn lw msg _ d acc) as [dc|] eqn:E; [|discriminate].
    pose proof (depth_pass_length cost_fn lw msg _ _ _ _ E) as Hdc.
    destruct (depth_pass_seq lw msg d _ _ _ _ E) as [H1 _].
    apply (IH (S k) (S d) dc acc' d' k'); [lia | lia | | exact H].
    intros n Hn. destruct (H1 n ltac:(lia)) as [a [c [Ha [Hc Hn']]]].
    rewrite Hn'. cbn [traj_cost_upto]. rewrite <- Hinv by lia. rewrite Ha, Hc. reflexivity.
Qed.

Lemma sweep_total (lw : LaserWanderer) (msg : LaserScan) (now : nat -> R)
  (Hlen : length (deltas lw) = length (rollouts lw))
  (Hcost : forall n t, (n < length (deltas lw))%nat -> (t < rollouts_T lw)%nat ->
                       cost_at cost_fn lw msg n t <> None) :
  forall fuel k d acc, length acc = length (deltas lw) ->
    sweep cost_fn lw msg now fuel k d acc <> None.
Proof.
  induction fuel as [|f IH]; intros k d acc Hl; cbn [sweep]; [discriminate|].
  destruct (Rlt_dec _ _); [|discriminate].
  destruct (Nat.ltb d (rollouts_T lw)) eqn:Hlt; [|discriminate].
  apply Nat.ltb_lt in Hlt.
  destruct (depth_pass cost_fn lw msg _ d acc) as [dc|] eqn:E.
  - apply IH. rewrite (depth_pass_length cost_fn lw msg _ _ _ _ E). exact Hl.
  - exfalso. refine (depth_pass_total lw msg d _ 0 acc _ E).
    intros j Hj. split; [lia|]. apply Hcost; lia.
Qed.

Lemma sweep_full_depth (lw : LaserWanderer) (msg : LaserScan) (now : nat -> R)
  (Htime : forall k, now k - now O < compute_time lw) :
  forall fuel k d acc, (fuel + d = S (rollouts_T lw))%nat -> (d <= rollouts_T lw)%nat ->
    match sweep cost_fn lw msg now fuel k d acc with
    | Some (_, d', _) => d' = rollouts_T lw
    | None => True
    end.
Proof.
  induction fuel as [|f IH]; intros k d acc Hf Hd; cbn [sweep]; [lia|].
  destruct (Rlt_dec (now k - now O) (compute_time lw)) as [_|Hn]; [|exfalso; apply Hn, Htime].
  destruct (Nat.ltb d (rollouts_T lw)) eqn:Hlt.
  - apply Nat.ltb_lt in Hlt.
    destruct (depth_pass cost_fn lw msg _ d acc) as [dc|]; [|exact I].
    apply IH; lia.
  - apply Nat.ltb_ge in Hlt. lia.
Qed.

Lemma traj_cost_upto_floor (lw : LaserWanderer) (msg : LaserScan)
  (Hfloor : forall delta p c, cost_fn lw delta p msg = Some c -> Rabs delta <= c) :
  forall n depth delta a, nth_error (deltas lw) n = Some delta ->
    traj_cost_upto cost_fn lw msg n depth = Some a -> INR depth * Rabs delta <= a.
Proof.
  intros n depth delta. induction depth as [|d IH]; intros a Hd H; cbn [traj_cost_upto] in H.
  - injection H as <-. cbn [INR]. lra.
  - destruct (traj_cost_upto cost_fn lw msg n d) as [s|]; [|discriminate].
    destruct (cost_at cost_fn lw msg n d) as [c|] eqn:Ec; [|discriminate].
    injection H as <-. specialize (IH s Hd eq_refl).
    unfold cost_at in Ec. rewrite Hd in Ec.
    destruct (nth_error (rollouts lw) n); [|discriminate].
    destruct (nth_error _ d); [|discriminate].
    pose proof (Hfloor _ _ _ Ec). rewrite S_INR. lra.
Qed.

End SweepFacts.

Lemma main_laser_wanderer_shape (prm : params) :
  rollouts_T (main_laser_wanderer prm) = p_T prm /\
  length (deltas (main_laser_wanderer prm)) = length (rollouts (main_laser_wanderer prm)) /\
  deltas (main_laser_wanderer prm) =
    np_arange (p_min_delta prm) (p_max_delta prm) (p_delta_incr prm / 3) /\
  speed (main_laser_wanderer prm) = p_speed prm /\
  compute_time (main_laser_wanderer prm) = p_compute_time prm /\
  (forall n traj, nth_error (rollouts (main_laser_wanderer prm)) n = Some traj ->
     length traj = p_T prm).
Proof.
  unfold main_laser_wanderer; cbv zeta.
  destruct (generate_mpc_rollouts_shape_aux (p_speed prm) (p_min_delta prm) (p_max_delta prm)
              (p_delta_incr prm / 3) (p_dt prm) (p_T prm) (p_car_length prm)) as [H1 H2].
  destruct (generate_mpc_rollouts (p_speed prm) (p_min_delta prm) (p_max_delta prm)
              (p_delta_incr prm / 3) (p_dt prm) (p_T prm) (p_car_length prm)) as [rs ds] eqn:E.
  cbn [fst snd] in H1, H2. cbn [rollouts_T deltas rollouts speed compute_time].
  split; [reflexivity|]. split; [symmetry; exact H1|].
  split; [unfold generate_mpc_rollouts in E; injection E as _ <-; reflexivity|].
  split; [reflexivity|]. split; [reflexivity|].
  intros n traj Hn. exact (proj1 (H2 n traj Hn)).
Qed.

Lemma main_laser_wanderer_rollouts (prm : params) (n : nat) (traj : list pose) :
  nth_error (rollouts (main_laser_wanderer prm)) n = Some traj ->
  exists d, nth_error (deltas (main_laser_wanderer prm)) n = Some d /\
    traj = generate_rollout (mk_pose 0 0 0)
             (repeat (mk_control (p_speed prm) d (p_dt prm)) (p_T prm)) (p_car_length prm).
Proof.
  unfold main_laser_wanderer; cbv zeta.
  destruct (generate_mpc_rollouts_shape_aux (p_speed prm) (p_min_delta prm) (p_max_delta prm)
              (p_delta_incr prm / 3) (p_dt prm) (p_T prm) (p_car_length prm)) as [_ H2].
  destruct (generate_mpc_rollouts (p_speed prm) (p_min_delta prm) (p_max_delta prm)
              (p_delta_incr prm / 3) (p_dt prm) (p_T prm) (p_car_length prm)) as [rs ds].
  cbn [fst snd] in H2. cbn [rollouts deltas]. intros Hn. exact (proj2 (H2 n traj Hn)).
Qed.

Lemma nth_error_repeat' (x : R) (m n : nat) :
  (n < m)%nat -> nth_error (repeat x m) n = Some x.
Proof.
  revert n. induction m as [|m IH]; intros [|n] H; cbn; try lia; [reflexivity|]. apply IH. lia.
Qed.

Lemma main_wander_sweep_inv (cost_fn : LaserWanderer -> R -> pose -> LaserScan -> option R)
  (prm : params) (msg : LaserScan) (now : nat -> R) (acc : list R) (depth k : nat) :
  wander_sweep cost_fn (main_laser_wanderer prm) msg now = Some (acc, depth, k) ->
  (depth <= p_T prm)%nat /\ length acc = length (deltas (main_laser_wanderer prm)) /\
  (forall n, (n < length acc)%nat ->
     nth_error acc n = traj_cost_upto cost_fn (main_laser_wanderer prm) msg n depth).
Proof.
  intros H. destruct (main_laser_wanderer_shape prm) as [HT [Hlen _]].
  rewrite <- HT. unfold wander_sweep in H.
  refine (sweep_accumulates_gen cost_fn _ msg now Hlen _ _ _ _ _ _ _ _ _ _ H).
  - lia.
  - apply repeat_length.
  - intros n Hn. rewrite repeat_length in Hn. rewrite nth_error_repeat' by exact Hn.
    reflexivity.
Qed.

(** For a planner built by [main], the loop keeps [delta_costs[n]] equal to
    the cost of the first [traj_depth] poses of trajectory [n], summed in
    loop order: when the sweep ends at depth [depth] (at most [T]), there is
    one accumulator per delta and each is [traj_cost_upto n depth]. *)
Theorem main_sweep_accumulates
  (cost_fn : LaserWanderer -> R -> pose -> LaserScan -> option R)
  (prm : params) (msg : LaserScan) (now : nat -> R) :
  match wander_sweep cost_fn (main_laser_wanderer prm) msg now with
  | Some (acc, depth, _) =>
      (depth <= p_T prm)%nat /\ length acc = length (deltas (main_laser_wanderer prm)) /\
      (forall n, (n < length acc)%nat ->
         nth_error acc n = traj_cost_upto cost_fn (main_laser_wanderer prm) msg n depth)
  | None => True
  end.
Proof.
  destruct (wander_sweep cost_fn (main_laser_wanderer prm) msg now) as [[[acc d] k]|] eqn:E;
    [|exact I].
  exact (main_wander_sweep_inv cost_fn prm msg now acc d k E).
Qed.

(** With time to spare at every loop test ([now k - start < compute_time]
    for every reading), a sweep that does not raise reaches the full horizon
    [traj_depth = T]. *)
Theorem ample_time_full_horizon
  (cost_fn : LaserWanderer -> R -> pose -> LaserScan -> option R)
  (lw : LaserWanderer) (msg : LaserScan) (now : nat -> R)
  (Htime : forall k, now k - now O < compute_time lw) :
  match wander_sweep cost_fn lw msg now with
  | Some (_, depth, _) => depth = rollouts_T lw
  | None => True
  end.
Proof.
  unfold wander_sweep. apply sweep_full_depth; [exact Htime | lia | lia].
Qed.

Lemma ample_time_full_horizon_witness :
  (forall k, frozen_clock k - frozen_clock O
             < compute_time (main_laser_wanderer params_default)) /\
  match wander_sweep SingleRay.compute_cost (main_laser_wanderer params_default) scan_clear
          frozen_clock with
  | Some (_, depth, _) => depth = rollouts_T (main_laser_wanderer params_default)
  | None => True
  end.
Proof.
  assert (H : forall k, frozen_clock k - frozen_clock O
                        < compute_time (main_laser_wanderer params_default)).
  { intros k. rewrite (proj1 (proj2 (proj2 (proj2 (proj2 (main_laser_wanderer_shape _)))))).
    unfold frozen_clock, params_default; cbn [p_compute_time]. lra. }
  split; [exact H|].
  exact (ample_time_full_horizon SingleRay.compute_cost _ scan_clear frozen_clock H).
Defined.

Lemma single_ray_cost_floor (lw : LaserWanderer) (delta : R) (p : pose) (msg : LaserScan)
  (c : R) : SingleRay.compute_cost lw delta p msg = Some c -> Rabs delta <= c.
Proof.
  pose proof MAX_PENALTY_pos as HM. unfold SingleRay.compute_cost.
  destruct (SingleRay._compute_pose_angle _ _) as [a|]; [|discriminate].
  destruct (Rlt_dec a (angle_min msg)); [intros H; injection H as <-; lra|].
  destruct (Rlt_dec (angle_max msg) a); [intros H; injection H as <-; lra|].
  destruct (beam_index a msg) as [i|]; [|discriminate].
  destruct (py_index (ranges msg) i) as [b|]; [|discriminate].
  destruct (too_close _ _ _); intros H; injection H as <-; lra.
Qed.

Lemma footprint_cost_floor (lw : LaserWanderer) (delta : R) (p : pose) (msg : LaserScan)
  (c : R) : Footprint.compute_cost lw delta p msg = Some c -> Rabs delta <= c.
Proof.
  pose proof MAX_PENALTY_pos as HM. unfold Footprint.compute_cost.
  destruct (Footprint.footprint_scan lw p msg) as [|k n|]; intros H; [| |discriminate];
    injection H as <-; [lra|].
  pose proof (hazard_penalty_nonneg k n). lra.
Qed.

(** The accumulators grow with the depth: for a planner built by [main] and
    either evaluator, when the sweep ends at depth [depth], the accumulator
    of delta [d] is at least [depth * |d|]. *)
Theorem main_accumulator_floor (prm : params) (msg : LaserScan) (now : nat -> R) :
  match wander_sweep SingleRay.compute_cost (main_laser_wanderer prm) msg now with
  | Some (acc, depth, _) =>
      forall n a d, nth_error acc n = Some a ->
        nth_error (deltas (main_laser_wanderer prm)) n = Some d -> INR depth * Rabs d <= a
  | None => True
  end /\
  match wander_sweep Footprint.compute_cost (main_laser_wanderer prm) msg now with
  | Some (acc, depth, _) =>
      forall n a d, nth_error acc n = Some a ->
        nth_error (deltas (main_laser_wanderer prm)) n = Some d -> INR depth * Rabs d <= a
  | None => True
  end.
Proof.
  split.
  - destruct (wander_sweep _ _ _ _) as [[[acc depth] k]|] eqn:E; [|exact I].
    destruct (main_wander_sweep_inv _ prm msg now acc depth k E) as [_ [_ Hinv]].
    intros n a d Ha Hd.
    assert (Hn : (n < length acc)%nat) by (apply nth_error_Some; congruence).
    rewrite Hinv in Ha by exact Hn.
    exact (traj_cost_upto_floor _ _ msg
             (fun delta p c => single_ray_cost_floor _ delta p msg c) n depth d a Hd Ha).
  - destruct (wander_sweep _ _ _ _) as [[[acc depth] k]|] eqn:E; [|exact I].
    destruct (main_wander_sweep_inv _ prm msg now acc depth k E) as [_ [_ Hinv]].
    intros n a d Ha Hd.
    assert (Hn : (n < length acc)%nat) by (apply nth_error_Some; congruence).
    rewrite Hinv in Ha by exact Hn.
    exact (traj_cost_upto_floor _ _ msg
             (fun delta p c => footprint_cost_floor _ delta p msg c) n depth d a Hd Ha).
Qed.

(** Where exceptions come from: for a planner built by [main], if the
    evaluator returns a cost for every delta [n] at every pose [t < T] of
    trajectory [n] (the only calls the loop can make), the callback raises
    exactly when the library of deltas is empty; otherwise it publishes. *)
Theorem main_raises_only_on_empty_library
  (cost_fn : LaserWanderer -> R -> pose -> LaserScan -> option R)
  (prm : params) (msg : LaserScan) (now : nat -> R)
  (Hok : forall n t, (n < length (deltas (main_laser_wanderer prm)))%nat ->
                     (t < p_T prm)%nat ->
                     cost_at cost_fn (main_laser_wanderer prm) msg n t <> None) :
  wander_cb cost_fn (main_laser_wanderer prm) msg now = Raise <->
  deltas (main_laser_wanderer prm) = [].
Proof.
  destruct (main_laser_wanderer_shape prm) as [HT [Hlen _]].
  set (lw := main_laser_wanderer prm) in *.
  assert (Hsome : wander_sweep cost_fn lw msg now <> None).
  { unfold wander_sweep. apply sweep_total; [exact Hlen| |apply repeat_length].
    intros n t Hn Ht. rewrite HT in Ht. exact (Hok n t Hn Ht). }
  unfold wander_cb.
  destruct (wander_sweep cost_fn lw msg now) as [[[acc depth] k]|] eqn:E; [|contradiction].
  unfold wander_sweep in E. apply sweep_length in E. rewrite repeat_length in E.
  destruct (np_argmin acc) as [i|] eqn:Ei.
  - destruct (np_argmin_spec acc i Ei) as [m [Hm _]].
    assert (Hi : (i < length (deltas lw))%nat)
      by (rewrite <- E; apply nth_error_Some; congruence).
    destruct (nth_error (deltas lw) i) as [d|] eqn:Ed;
      [|apply nth_error_Some in Hi; contradiction].
    split; [discriminate|]. intros Hnil. rewrite Hnil in Hi. cbn in Hi. lia.
  - destruct acc as [|x t]; [|discriminate].
    split; [intros _|reflexivity]. destruct (deltas lw); [reflexivity | discriminate].
Qed.

Lemma main_raises_only_on_empty_library_witness :
  (forall n t, (n < length (deltas (main_laser_wanderer params_straight)))%nat ->
               (t < p_T params_straight)%nat ->
               cost_at SingleRay.compute_cost (main_laser_wanderer params_straight)
                 scan_behind n t <> None) /\
  (wander_cb SingleRay.compute_cost (main_laser_wanderer params_straight) scan_behind
     frozen_clock = Raise <->
   deltas (main_laser_wanderer params_straight) = []).
Proof.
  pose proof PI_bounds as HPI.
  assert (Hds : deltas (main_laser_wanderer params_straight) = [0 + INR 0 * (3/10/3)]).
  { rewrite (proj1 (proj2 (proj2 (main_laser_wanderer_shape _)))).
    unfold np_arange, params_straight; cbn [p_min_delta p_max_delta p_delta_incr].
    replace ((1/10 - 0) / (3/10/3)) with (IZR 1) by (cbn [IZR IPR]; field).
    unfold py_ceil. rewrite <- opp_IZR, Int_part_IZR. reflexivity. }
  assert (Hok : forall n t, (n < length (deltas (main_laser_wanderer params_straight)))%nat ->
                  (t < p_T params_straight)%nat ->
                  cost_at SingleRay.compute_cost (main_laser_wanderer params_straight)
                    scan_behind n t <> None).
  { intros n t Hn Ht. rewrite Hds in Hn. cbn [length] in Hn.
    unfold params_straight in Ht; cbn [p_T] in Ht.
    assert (n = 0%nat) as -> by lia. assert (t = 0%nat) as -> by lia.
    destruct (main_laser_wanderer_shape params_straight) as [_ [Hlen _]].
    destruct (nth_error (rollouts (main_laser_wanderer params_straight)) 0) as [traj|] eqn:Er.
    2: { apply nth_error_None in Er. rewrite <- Hlen, Hds in Er. cbn in Er. lia. }
    destruct (main_laser_wanderer_rollouts _ _ _ Er) as [d [Hd ->]].
    rewrite Hds in Hd. cbn [nth_error] in Hd. injection Hd as Hd0.
    assert (Hz : d = 0) by (rewrite <- Hd0; cbn [INR]; ring). clear Hd0. subst d.
    unfold cost_at. rewrite Hds, Er. cbn [nth_error].
    unfold params_straight; cbn [p_speed p_dt p_T p_car_length repeat generate_rollout nth_error].
    rewrite zero_steering_step by (cbn [ptheta]; lra).
    cbn [px py ptheta]. rewrite cos_0, sin_0.
    unfold SingleRay.compute_cost. rewrite compute_pose_angle_origin. cbn [px py].
    unfold np_arctan_div.
    destruct (Req_EM_T (0 + 1 * 1 * (1/10)) 0) as [E|_]; [lra|].
    destruct (Rlt_dec (atan ((0 + 1 * 0 * (1/10)) / (0 + 1 * 1 * (1/10))))
                (angle_min scan_behind)) as [_|Hge]; [discriminate|].
    exfalso. apply Hge. cbn [angle_min scan_behind].
    pose proof (atan_bound ((0 + 1 * 0 * (1/10)) / (0 + 1 * 1 * (1/10)))). lra. }
  split; [exact Hok|].
  exact (main_raises_only_on_empty_library SingleRay.compute_cost params_straight scan_behind
           frozen_clock Hok).
Defined.


(** ** The two evaluators *)

(** The single-ray evaluator is two-valued: a cost it returns is either the
    baseline [|delta|] or [|delta| + MAX_PENALTY]. *)
Theorem single_ray_cost_values (lw : LaserWanderer) (delta : R) (p : pose) (msg : LaserScan) :
  match SingleRay.compute_cost lw delta p msg with
  | Some c => c = Rabs delta \/ c = Rabs delta + MAX_PENALTY
  | None => True
  end.
Proof.
  unfold SingleRay.compute_cost.
  destruct (SingleRay._compute_pose_angle _ _) as [a|]; [|exact I].
  destruct (Rlt_dec a (angle_min msg)); [right; reflexivity|].
  destruct (Rlt_dec (angle_max msg) a); [right; reflexivity|].
  destruct (beam_index a msg) as [i|]; [|exact I].
  destruct (py_index (ranges msg) i) as [b|]; [|exact I].
  destruct (too_close _ _ _); [right | left]; reflexivity.
Qed.

(** The footprint evaluator's cost is either [|delta| + MAX_PENALTY] or a
    graded cost in [[|delta|, |delta| + 15)]: below the detection threshold
    the penalty [30 * too_close_count / k] stays under [30 * 0.5]. *)
Theorem footprint_cost_values (lw : LaserWanderer) (delta : R) (p : pose) (msg : LaserScan) :
  match Footprint.compute_cost lw delta p msg with
  | Some c => c = Rabs delta + MAX_PENALTY \/ (Rabs delta <= c < Rabs delta + 15)
  | None => True
  end.
Proof.
  unfold Footprint.compute_cost.
  destruct (Footprint.footprint_scan lw p msg) as [|k n|]; [left; reflexivity| |exact I].
  unfold Footprint.hazard_penalty.
  destruct (Nat.eqb k 1 && Nat.ltb 0 n)%bool; [left; reflexivity|].
  destruct (Rle_dec DETECTION_THRESH (INR n / INR k)) as [_|Hlt]; [left; reflexivity|].
  right. unfold DETECTION_THRESH in Hlt. pose proof (hazard_prop_nonneg k n). lra.
Qed.

(** Field of view of the footprint evaluator: when both corner bearings are
    numbers and one of them lies outside [[angle_min, angle_max]], the pose
    costs [|delta| + MAX_PENALTY], whatever the beams read. *)
Theorem footprint_out_of_view_penalty (lw : LaserWanderer) (delta : R) (p : pose)
  (msg : LaserScan) (al ar : R)
  (Hbear : Footprint.rollout_to_laser_angle lw p = (Some al, Some ar))
  (Hout : al < angle_min msg \/ ar < angle_min msg \/
          angle_max msg < al \/ angle_max msg < ar) :
  Footprint.compute_cost lw delta p msg = Some (Rabs delta + MAX_PENALTY).
Proof.
  unfold Footprint.compute_cost, Footprint.footprint_scan. rewrite Hbear.
  assert (Hb : (opt_lt (py_min2 (Some al) (Some ar)) (angle_min msg)
                || opt_gt (py_max2 (Some al) (Some ar)) (angle_max msg))%bool = true).
  { unfold py_min2, py_max2, opt_lt, opt_gt.
    destruct (Rlt_dec ar al), (Rlt_dec al ar);
      repeat match goal with
             | |- context [Rlt_dec ?a ?b] => destruct (Rlt_dec a b)
             end; cbn; try reflexivity; lra. }
  rewrite Hb. reflexivity.
Qed.

Lemma footprint_out_of_view_penalty_witness :
  Footprint.rollout_to_laser_angle lw_example (mk_pose 0 0 0) =
    (Some (atan ((0 * (33/100/2) + 1 * (CAR_WIDTH/2) + 0) /
                 (1 * (33/100/2) - 0 * (CAR_WIDTH/2) + 0))),
     Some (atan ((0 * (33/100/2) + 1 * (- (CAR_WIDTH/2)) + 0) /
                 (1 * (33/100/2) - 0 * (- (CAR_WIDTH/2)) + 0)))) /\
  (atan ((0 * (33/100/2) + 1 * (CAR_WIDTH/2) + 0) /
         (1 * (33/100/2) - 0 * (CAR_WIDTH/2) + 0)) < angle_min scan_short \/
   atan ((0 * (33/100/2) + 1 * (- (CAR_WIDTH/2)) + 0) /
         (1 * (33/100/2) - 0 * (- (CAR_WIDTH/2)) + 0)) < angle_min scan_short \/
   angle_max scan_short < atan ((0 * (33/100/2) + 1 * (CAR_WIDTH/2) + 0) /
                                (1 * (33/100/2) - 0 * (CAR_WIDTH/2) + 0)) \/
   angle_max scan_short < atan ((0 * (33/100/2) + 1 * (- (CAR_WIDTH/2)) + 0) /
                                (1 * (33/100/2) - 0 * (- (CAR_WIDTH/2)) + 0))) /\
  Footprint.compute_cost lw_example 0 (mk_pose 0 0 0) scan_short = Some (Rabs 0 + MAX_PENALTY).
Proof.
  assert (Hb : Footprint.rollout_to_laser_angle lw_example (mk_pose 0 0 0) =
    (Some (atan ((0 * (33/100/2) + 1 * (CAR_WIDTH/2) + 0) /
                 (1 * (33/100/2) - 0 * (CAR_WIDTH/2) + 0))),
     Some (atan ((0 * (33/100/2) + 1 * (- (CAR_WIDTH/2)) + 0) /
                 (1 * (33/100/2) - 0 * (- (CAR_WIDTH/2)) + 0))))).
  { unfold Footprint.rollout_to_laser_angle; cbn [px py ptheta car_length car_width lw_example].
    rewrite cos_0, sin_0. unfold np_arctan_div.
    destruct (Req_EM_T (1 * (33/100/2) - 0 * (CAR_WIDTH/2) + 0) 0) as [E|_];
      [unfold CAR_WIDTH in E; lra|].
    destruct (Req_EM_T (1 * (33/100/2) - 0 * (- (CAR_WIDTH/2)) + 0) 0) as [E|_];
      [unfold CAR_WIDTH in E; lra|].
    reflexivity. }
  assert (Ho : atan ((0 * (33/100/2) + 1 * (- (CAR_WIDTH/2)) + 0) /
                     (1 * (33/100/2) - 0 * (- (CAR_WIDTH/2)) + 0)) < angle_min scan_short).
  { cbn [angle_min scan_short]. unfold CAR_WIDTH.
    replace ((0 * (33/100/2) + 1 * (- (3/10/2)) + 0) / (1 * (33/100/2) - 0 * (- (3/10/2)) + 0))
      with (- (10/11)) by field.
    rewrite atan_opp. pose proof (atan_increasing 0 (10/11) ltac:(lra)) as Hi.
    rewrite atan_0 in Hi. lra. }
  split; [exact Hb|]. split; [right; left; exact Ho|].
  exact (footprint_out_of_view_penalty lw_example 0 _ scan_short _ _ Hb (or_intror (or_introl Ho))).
Defined.

(** The footprint of a car heading along the x axis is symmetric: for a pose
    [(x, 0, 0)] the front-left corner's bearing is the opposite of the
    front-right one's (both NaN together). *)
Theorem footprint_bearings_symmetric (lw : LaserWanderer) (x : R) :
  fst (Footprint.rollout_to_laser_angle lw (mk_pose x 0 0)) =
  option_map Ropp (snd (Footprint.rollout_to_laser_angle lw (mk_pose x 0 0))).
Proof.
  unfold Footprint.rollout_to_laser_angle; cbn [px py ptheta fst snd].
  rewrite cos_0, sin_0.
  set (a := car_length lw / 2). set (b := car_width lw / 2).
  replace (1 * a - 0 * b + x) with (a + x) by ring.
  replace (1 * a - 0 * - b + x) with (a + x) by ring.
  replace (0 * a + 1 * b + 0) with b by ring.
  replace (0 * a + 1 * - b + 0) with (- b) by ring.
  unfold np_arctan_div.
  destruct (Req_EM_T (a + x) 0).
  - destruct (Rlt_dec 0 b); destruct (Rlt_dec 0 (- b)); try lra;
      destruct (Rlt_dec b 0); destruct (Rlt_dec (- b) 0); try lra; cbn; f_equal; lra.
  - cbn. f_equal. replace (- b / (a + x)) with (- (b / (a + x))) by (field; assumption).
    rewrite atan_opp. ring.
Qed.
